(** * DU Improved ([duim.py]): a shallow embedding and its verified properties

    The program reads the output of [du -d 1], builds a mapping from
    directory to size, and prints one row per sub-directory (percentage, bar,
    size) followed by a total.

    Conventions of the embedding.
    - A Python [str] is a Rocq [string]; its characters are the code points
      U+0000 .. U+00FF.
    - A Python [int] is a [Z]. The interpreter's optional cap on the number of
      digits converted between [str] and [int] is switched off, as it is in
      every release that does not have the setting.
    - A Python [float] is an IEEE 754 binary64 value, see [PyFloat].
    - A [dict] is the list of its items in insertion order.
    - A raised exception is a value of [exn]; a function that may raise
      returns a [result]. *)

From Stdlib Require Import Bool List String Ascii ZArith QArith Qround Qabs Qpower.
From Stdlib Require Import Lia Lqa Morphisms.
From Stdlib Require Import Permutation Sorted.
Import ListNotations.

Local Open Scope string_scope.
Local Open Scope Z_scope.

(** ** Exceptions and results *)

Inductive exn : Type :=
| InvalidLiteral (s : string)   (* ValueError raised by [int(s)] *)
| ValueError (msg : string)     (* ValueError raised with the message [msg] *)
| OverflowError                 (* an int or a float too large for the operation *)
| ZeroDivisionError.

Inductive result (A : Type) : Type :=
| Ok (a : A)
| Raise (e : exn).
Arguments Ok {A} a.
Arguments Raise {A} e.

Definition bind {A B : Type} (r : result A) (k : A -> result B) : result B :=
  match r with
  | Ok a => k a
  | Raise e => Raise e
  end.

Notation "'let*' x ':=' r 'in' k" := (bind r (fun x => k))
  (at level 10, x name, r at level 100, k at level 200).

(** ** Strings: the [str] methods the program calls *)

Module PyStr.

Definition chars (s : string) : list ascii := list_ascii_of_string s.
Definition of_chars (cs : list ascii) : string := string_of_list_ascii cs.

Definition code (c : ascii) : N := N_of_ascii c.

(** Whitespace as [str.strip()] sees it. *)
Definition isspace (c : ascii) : bool :=
  let n := code c in
  (((9 <=? n) && (n <=? 13)) || ((28 <=? n) && (n <=? 32))
   || (n =? 133) || (n =? 160))%N.

Fixpoint drop_while (p : ascii -> bool) (cs : list ascii) : list ascii :=
  match cs with
  | [] => []
  | c :: cs' => if p c then drop_while p cs' else cs
  end.

Definition strip_chars (p : ascii -> bool) (cs : list ascii) : list ascii :=
  rev (drop_while p (rev (drop_while p cs))).

(** [s.strip()] *)
Definition strip (s : string) : string := of_chars (strip_chars isspace (chars s)).

(** [s.split(sep)] for a one-character separator: one field more than there
    are separators, empty fields kept. *)
Fixpoint split_chars (sep : ascii) (cs : list ascii) : list (list ascii) :=
  match cs with
  | [] => [[]]
  | c :: cs' =>
      if Ascii.eqb c sep then [] :: split_chars sep cs'
      else match split_chars sep cs' with
           | f :: fs => (c :: f) :: fs
           | [] => [[c]]
           end
  end.

Definition split (sep : ascii) (s : string) : list string :=
  map of_chars (split_chars sep (chars s)).

(** [c * n]: a negative count gives the empty string. *)
Definition repeat_char (c : ascii) (n : Z) : string :=
  of_chars (repeat c (Z.to_nat n)).

(** [format(s, '>w')]: right-aligned in a field of [w] characters, never
    truncated. *)
Definition rjust (w : nat) (s : string) : string :=
  of_chars (repeat " "%char (w - String.length s)) ++ s.

End PyStr.

(** ** Integers: [int(str)] and [str(int)] *)

Module PyInt.

Import PyStr.

(** Whitespace as [int()] skips it around a literal. *)
Definition isspace (c : ascii) : bool :=
  let n := code c in
  (((9 <=? n) && (n <=? 13)) || (n =? 32) || (n =? 133) || (n =? 160))%N.

Definition is_digit (c : ascii) : bool :=
  let n := code c in ((48 <=? n) && (n <=? 57))%N.

Definition digit_val (c : ascii) : Z := Z.of_N (code c) - 48.

(** The digits after the first one: single underscores may separate digits. *)
Fixpoint int_digits (acc : Z) (after_underscore : bool) (cs : list ascii) : option Z :=
  match cs with
  | [] => if after_underscore then None else Some acc
  | c :: cs' =>
      if is_digit c then int_digits (10 * acc + digit_val c) false cs'
      else if Ascii.eqb c "_" then
             if after_underscore then None else int_digits acc true cs'
           else None
  end.

Definition int_magnitude (cs : list ascii) : option Z :=
  match cs with
  | c :: cs' => if is_digit c then int_digits (digit_val c) false cs' else None
  | [] => None
  end.

Definition int_chars (cs : list ascii) : option Z :=
  match strip_chars isspace cs with
  | "+"%char :: ds => int_magnitude ds
  | "-"%char :: ds => option_map Z.opp (int_magnitude ds)
  | ds => int_magnitude ds
  end.

(** [int(s)]: whitespace, an optional sign, decimal digits, whitespace. *)
Definition int (s : string) : result Z :=
  match int_chars (chars s) with
  | Some n => Ok n
  | None => Raise (InvalidLiteral s)
  end.

Definition digit_char (d : Z) : ascii := ascii_of_N (Z.to_N (48 + d)).

(** The decimal digits of a natural number, most significant first; [fuel]
    bounds the number of digits. *)
Fixpoint digits_of (fuel : nat) (n : Z) (acc : list ascii) : list ascii :=
  match fuel with
  | O => acc
  | S fuel' =>
      let acc' := digit_char (n mod 10) :: acc in
      if n <? 10 then acc' else digits_of fuel' (n / 10) acc'
  end.

Definition decimal (n : Z) : list ascii :=
  digits_of (S (Z.to_nat (Z.log2 n))) n [].

(** [str(n)] *)
Definition str (n : Z) : string :=
  of_chars (if n <? 0 then "-"%char :: decimal (- n) else decimal n).

End PyInt.

(** ** Dictionaries: items in insertion order *)

Module PyDict.

Definition dict : Type := list (string * Z).

(** [d[k] = v]: an existing key keeps its place, a new key goes last. *)
Fixpoint setitem (d : dict) (k : string) (v : Z) : dict :=
  match d with
  | [] => [(k, v)]
  | (k', v') :: d' =>
      if String.eqb k' k then (k, v) :: d' else (k', v') :: setitem d' k v
  end.

Fixpoint get (d : dict) (k : string) : option Z :=
  match d with
  | [] => None
  | (k', v') :: d' => if String.eqb k' k then Some v' else get d' k
  end.

Fixpoint remove (d : dict) (k : string) : dict :=
  match d with
  | [] => []
  | (k', v') :: d' => if String.eqb k' k then d' else (k', v') :: remove d' k
  end.

(** [d.pop(k, default)]: the value and the dictionary without the key. *)
Definition pop (d : dict) (k : string) (default : Z) : Z * dict :=
  match get d k with
  | Some v => (v, remove d k)
  | None => (default, d)
  end.

Definition keys (d : dict) : list string := map fst d.

End PyDict.

(** ** The parser *)

Import PyDict.

Definition tab : ascii := ascii_of_N 9.

(** The body of the loop of [create_dir_dict], one line at a time. *)
Fixpoint create_dir_dict_from (dir_dict : dict) (du_output : list string) : result dict :=
  match du_output with
  | [] => Ok dir_dict
  | line :: rest =>
      match PyStr.split tab line with
      | [size; directory] =>
          let* n := PyInt.int size in
          create_dir_dict_from (setitem dir_dict directory n) rest
      | _ => create_dir_dict_from dir_dict rest
      end
  end.

Definition create_dir_dict (du_output : list string) : result dict :=
  create_dir_dict_from [] du_output.

(** ** Floats: IEEE 754 binary64, round to nearest, ties to even

    A finite double is the rational it denotes; [Fnzero] is the negative
    zero. Every operation computes the exact rational result and rounds it
    once, which is how IEEE 754 defines the operation. *)

Module PyFloat.

Local Open Scope Q_scope.

Inductive float : Type :=
| Fnan
| Finf (neg : bool)
| Fnzero
| Ffin (q : Q).

(** Round to the nearest integer, a tie to the even one. *)
Definition round_even (q : Q) : Z :=
  let f := Qfloor q in
  match Qcompare (q - inject_Z f) (1 # 2) with
  | Lt => f
  | Gt => (f + 1)%Z
  | Eq => if Z.even f then f else (f + 1)%Z
  end.

(** floor (log2 q) for a positive [q]. *)
Definition ilog2 (q : Q) : Z :=
  let k := (Z.log2 (Qnum q) - Z.log2 (Zpos (Qden q)))%Z in
  if Qle_bool (2 ^ k) q then k else (k - 1)%Z.

(** The exponent of the last mantissa bit of the doubles around [q]: 53 bits
    of precision, subnormals from 2^-1074. *)
Definition fexp (q : Q) : Z := Z.max (ilog2 (Qabs q) - 52) (-1074).

(** The multiple of 2^e nearest to [q]. *)
Definition round_to (e : Z) (q : Q) : Q :=
  inject_Z (round_even (q / 2 ^ e)) * 2 ^ e.

(** The double nearest to [q], were the exponent range unbounded above. *)
Definition round64 (q : Q) : Q := round_to (fexp q) q.

Definition overflows (r : Q) : bool := Qle_bool (2 ^ 1024) (Qabs r).

Definition signed_zero (neg : bool) : float := if neg then Fnzero else Ffin 0.

(** The float of the exact result [q]; [neg] is the sign IEEE 754 gives the
    result, which shows when it is a zero or an infinity. *)
Definition rounded (neg : bool) (q : Q) : float :=
  let r := Qred (round64 q) in
  if overflows r then Finf neg
  else if Qeq_bool r 0 then signed_zero neg
  else Ffin r.

Definition sign_bit (x : float) : bool :=
  match x with
  | Fnan => false
  | Finf neg => neg
  | Fnzero => true
  | Ffin q => if Qlt_le_dec q 0 then true else false
  end.

(** The value of a finite float. *)
Definition finite_val (x : float) : option Q :=
  match x with
  | Ffin q => Some q
  | Fnzero => Some 0
  | _ => None
  end.

Definition is_zero (x : float) : bool :=
  match finite_val x with
  | Some q => Qeq_bool q 0
  | None => false
  end.

Definition fmul (x y : float) : float :=
  let neg := xorb (sign_bit x) (sign_bit y) in
  match x, y with
  | Fnan, _ | _, Fnan => Fnan
  | Finf _, _ => if is_zero y then Fnan else Finf neg
  | _, Finf _ => if is_zero x then Fnan else Finf neg
  | _, _ =>
      match finite_val x, finite_val y with
      | Some a, Some b => rounded neg (a * b)
      | _, _ => Fnan
      end
  end.

(** Division by a non-zero float. *)
Definition fdiv (x y : float) : float :=
  let neg := xorb (sign_bit x) (sign_bit y) in
  match x, y with
  | Fnan, _ | _, Fnan => Fnan
  | Finf _, Finf _ => Fnan
  | Finf _, _ => Finf neg
  | _, Finf _ => signed_zero neg
  | _, _ =>
      match finite_val x, finite_val y with
      | Some a, Some b => rounded neg (a / b)
      | _, _ => Fnan
      end
  end.

(** [float(n)] *)
Definition of_int (n : Z) : result float :=
  match rounded (n <? 0)%Z (inject_Z n) with
  | Finf _ => Raise OverflowError
  | x => Ok x
  end.

(** The numbers of the program: [int] and [float]. *)
Inductive num : Type :=
| Int (n : Z)
| Float (x : float).

Definition to_float (a : num) : result float :=
  match a with
  | Int n => of_int n
  | Float x => Ok x
  end.

(** [a / b] *)
Definition truediv (a b : num) : result num :=
  match a, b with
  | Int n, Int m =>
      if (m =? 0)%Z then Raise ZeroDivisionError
      else match rounded (xorb (n <? 0)%Z (m <? 0)%Z) (inject_Z n / inject_Z m) with
           | Finf _ => Raise OverflowError
           | x => Ok (Float x)
           end
  | _, _ =>
      let* x := to_float a in
      let* y := to_float b in
      if is_zero y then Raise ZeroDivisionError else Ok (Float (fdiv x y))
  end.

(** [a * b] *)
Definition mul (a b : num) : result num :=
  match a, b with
  | Int n, Int m => Ok (Int (n * m))
  | _, _ =>
      let* x := to_float a in
      let* y := to_float b in
      Ok (Float (fmul x y))
  end.

(** The extended real a number denotes; [None] for a NaN. Comparisons
    between an [int] and a [float] are by value. *)
Inductive ereal : Type :=
| NegInf
| Real (q : Q)
| PosInf.

Definition value (a : num) : option ereal :=
  match a with
  | Int n => Some (Real (inject_Z n))
  | Float Fnan => None
  | Float (Finf neg) => Some (if neg then NegInf else PosInf)
  | Float Fnzero => Some (Real 0)
  | Float (Ffin q) => Some (Real q)
  end.

Definition ereal_le (u v : ereal) : bool :=
  match u, v with
  | NegInf, _ => true
  | _, PosInf => true
  | Real p, Real q => Qle_bool p q
  | _, _ => false
  end.

(** [a <= b] *)
Definition le (a b : num) : bool :=
  match value a, value b with
  | Some u, Some v => ereal_le u v
  | _, _ => false
  end.

(** [a < b] *)
Definition lt (a b : num) : bool :=
  match value a, value b with
  | Some u, Some v => negb (ereal_le v u)
  | _, _ => false
  end.

(** [round(a)] *)
Definition round (a : num) : result Z :=
  match a with
  | Int n => Ok n
  | Float Fnan => Raise (ValueError "cannot convert float NaN to integer")
  | Float (Finf _) => Raise OverflowError
  | Float Fnzero => Ok 0%Z
  | Float (Ffin q) => Ok (round_even q)
  end.

(** The digits of [n], at least [w] of them. *)
Definition zero_padded (w : nat) (n : Z) : list ascii :=
  let ds := PyInt.decimal n in
  (repeat "0"%char (w - List.length ds) ++ ds)%list.

(** A non-negative rational in fixed-point notation with [prec] decimals,
    correctly rounded. *)
Definition fixed_point (prec : nat) (q : Q) : list ascii :=
  let scale := (10 ^ Z.of_nat prec)%Z in
  let d := round_even (q * inject_Z scale) in
  (PyInt.decimal (d / scale)
   ++ match prec with
      | O => []
      | S _ => "."%char :: zero_padded prec (d mod scale)
      end)%list.

Definition format_float (prec : nat) (x : float) : string :=
  match x with
  | Fnan => "nan"
  | Finf neg => if neg then "-inf" else "inf"
  | Fnzero => PyStr.of_chars ("-"%char :: fixed_point prec 0)
  | Ffin q =>
      PyStr.of_chars
        (if sign_bit x then "-"%char :: fixed_point prec (Qabs q)
         else fixed_point prec q)
  end.

(** [format(a, '.<prec>f')] *)
Definition format_f (prec : nat) (a : num) : result string :=
  let* x := to_float a in
  Ok (format_float prec x).

End PyFloat.

(** ** The program *)

Import PyFloat.

(** [percent_to_graph(percent, total_chars)] *)
Definition percent_to_graph (percent : num) (total_chars : Z) : result string :=
  if negb (le (Int 0) percent && le percent (Int 100)) then
    Raise (ValueError "Percent must be between 0 and 100.")
  else
    let* fraction := truediv percent (Int 100) in
    let* filled := mul fraction (Int total_chars) in
    let* filled_length := round filled in
    Ok (PyStr.repeat_char "="%char filled_length
        ++ PyStr.repeat_char " "%char (total_chars - filled_length)).

(** The loop of [human_readable] over the units that are left. *)
Fixpoint human_readable_from (size_bytes : num) (units : list string) : result string :=
  match units with
  | [] =>
      let* digits := format_f 1 size_bytes in
      Ok (digits ++ " P")
  | unit :: rest =>
      if lt size_bytes (Int 1024) then
        let* digits := format_f 1 size_bytes in
        Ok (digits ++ " " ++ unit)
      else
        let* size_bytes' := truediv size_bytes (Int 1024) in
        human_readable_from size_bytes' rest
  end.

(** [human_readable(size_kb)] *)
Definition human_readable (size_kb : Z) : result string :=
  human_readable_from (Int (size_kb * 1024)) ["B"; "K"; "M"; "G"; "T"].

(** What the program writes, in order, and how a computation ends. *)
Inductive event : Type :=
| Stdout (line : string)
| Stderr (line : string).

Inductive ending (A : Type) : Type :=
| Returns (a : A)
| Exits (code : Z)          (* [sys.exit(code)] *)
| Uncaught (e : exn).       (* an exception nobody handles *)
Arguments Returns {A} a.
Arguments Exits {A} code.
Arguments Uncaught {A} e.

Definition io (A : Type) : Type := (list event * ending A)%type.

Definition io_ret {A : Type} (a : A) : io A := ([], Returns a).

Definition io_bind {A B : Type} (m : io A) (k : A -> io B) : io B :=
  match m with
  | (tr, Returns a) => let (tr', e) := k a in ((tr ++ tr')%list, e)
  | (tr, Exits code) => (tr, Exits code)
  | (tr, Uncaught e) => (tr, Uncaught e)
  end.

Notation "'do' x '<-' m ';' k" := (io_bind m (fun x => k))
  (at level 10, x name, m at level 100, k at level 200).
Notation "m ';;' k" := (io_bind m (fun _ => k))
  (at level 100, k at level 200, right associativity).

Definition print (line : string) : io unit := ([Stdout line], Returns tt).
Definition print_err (line : string) : io unit := ([Stderr line], Returns tt).
Definition sys_exit {A : Type} (code : Z) : io A := ([], Exits code).

(** A computation that may raise, run inside the program. *)
Definition lift {A : Type} (r : result A) : io A :=
  match r with
  | Ok a => io_ret a
  | Raise e => ([], Uncaught e)
  end.

(** The exit status the shell sees. *)
Definition exit_status {A : Type} (e : ending A) : Z :=
  match e with
  | Returns _ => 0
  | Exits code => code
  | Uncaught _ => 1
  end.

(** What running [du -d 1 target] and reading its output gives: the text of
    its standard output, or the exception of [Popen] or [communicate]. *)
Inductive du_run : Type :=
| DuOutput (stdout : string)
| DuError (e : string).

Definition newline : ascii := ascii_of_N 10.

Definition nonempty (s : string) : bool :=
  match s with
  | EmptyString => false
  | String _ _ => true
  end.

(** [[line.strip() for line in stdout.split('\n') if line.strip()]] *)
Definition stripped_lines (stdout : string) : list string :=
  map PyStr.strip
    (filter (fun line => nonempty (PyStr.strip line)) (PyStr.split newline stdout)).

(** [call_du_sub(target_directory)], given what the sub-process did. *)
Definition call_du_sub (process : du_run) : io (list string) :=
  match process with
  | DuOutput stdout => io_ret (stripped_lines stdout)
  | DuError e =>
      print_err ("Error: " ++ e) ;; sys_exit 1
  end.

(** The parsed command line, as [parse_command_args] returns it. *)
Module Args.
Record args : Type := {
  target : string;
  human_readable : bool;
  length : Z
}.
End Args.

(** The file system and the [du] process, as the program observes them. *)
Record world : Type := {
  isdir : string -> bool;
  run_du : string -> du_run
}.

(** A stable sort by ascending key. *)
Fixpoint insert_by {A : Type} (key : A -> Z) (x : A) (l : list A) : list A :=
  match l with
  | [] => [x]
  | y :: l' => if key x <=? key y then x :: l else y :: insert_by key x l'
  end.

Fixpoint sort_by {A : Type} (key : A -> Z) (l : list A) : list A :=
  match l with
  | [] => []
  | x :: l' => insert_by key x (sort_by key l')
  end.

(** [sorted(l, key=key, reverse=reverse)]: a reverse sort reverses the list,
    sorts it and reverses the result, which keeps equal keys in their
    original order. *)
Definition sorted {A : Type} (key : A -> Z) (reverse : bool) (l : list A) : list A :=
  if reverse then rev (sort_by key (rev l)) else sort_by key l.

(** [main], line 112: the rows in the order they are printed. *)
Definition sorted_dirs (dir_dict : dict) : list (string * Z) :=
  sorted snd true dir_dict.

(** [main], line 120: the percentage of one row. *)
Definition row_percent (size total_size : Z) : result num :=
  if total_size >? 0 then
    let* ratio := truediv (Int size) (Int total_size) in
    mul ratio (Int 100)
  else Ok (Int 0).

(** [human_readable(size) if args.human_readable else f"{size}K"] *)
Definition size_string (a : Args.args) (size : Z) : result string :=
  if Args.human_readable a then human_readable size
  else Ok (PyInt.str size ++ "K").

(** [main], lines 120 to 123: the line printed for one directory. *)
Definition report_row (a : Args.args) (total_size : Z) (entry : string * Z) : result string :=
  let (directory, size) := entry in
  let* percent := row_percent size total_size in
  let* bar := percent_to_graph percent (Args.length a) in
  let* size_str := size_string a size in
  let* percent_str := format_f 0 percent in
  Ok (PyStr.rjust 3 percent_str ++ " % [" ++ bar ++ "] "
      ++ PyStr.rjust 8 size_str ++ "  " ++ directory).

(** [main], lines 119 to 123: the loop over the rows. *)
Fixpoint print_rows (a : Args.args) (total_size : Z) (rows : list (string * Z)) : io unit :=
  match rows with
  | [] => io_ret tt
  | entry :: rest =>
      do line <- lift (report_row a total_size entry);
      print line ;;
      print_rows a total_size rest
  end.

(** [main], lines 108 to 127: the report for a non-empty mapping. *)
Definition report (a : Args.args) (dir_dict : dict) : io unit :=
  let (total_size, dir_dict') := pop dir_dict (Args.target a) 0 in
  print_rows a total_size (sorted_dirs dir_dict') ;;
  do total_str <- lift (size_string a total_size);
  print ("Total: " ++ total_str ++ "   " ++ Args.target a).

(** [main()], for the command line [a] in the world [w]. *)
Definition main (a : Args.args) (w : world) : io unit :=
  if negb (isdir w (Args.target a)) then
    print_err ("Error: " ++ Args.target a ++ " is not a valid directory") ;;
    sys_exit 1
  else
    do du_output <- call_du_sub (run_du w (Args.target a));
    do dir_dict <- lift (create_dir_dict du_output);
    match dir_dict with
    | [] => print_err "No subdirectories found." ;; sys_exit 0
    | _ :: _ => report a dir_dict
    end.

(** ** Vocabulary of the statements *)

(** The tab-separated fields of a line of the scan. *)
Definition fields (line : string) : list string := PyStr.split tab line.

(** A line of exactly two fields, the only shape the parser reads. *)
Definition well_shaped (line : string) : bool :=
  match fields line with
  | [_; _] => true
  | _ => false
  end.



Definition has_minus (s : string) : bool :=
  existsb (Ascii.eqb "-"%char) (PyStr.chars s).

(** The orders of a list sorted by a key. *)
Definition ascending_by {A : Type} (key : A -> Z) (x y : A) : Prop := key x <= key y.
Definition descending_by {A : Type} (key : A -> Z) (x y : A) : Prop := key y <= key x.

(** The elements of a list whose key is [k], in the order of the list. *)
Definition with_key {A : Type} (key : A -> Z) (k : Z) (l : list A) : list A :=
  filter (fun e => key e =? k) l.

(** The test [0 <= percent <= 100] of [percent_to_graph] passes. *)
Definition valid_percent (percent : num) : Prop :=
  le (Int 0) percent = true /\ le percent (Int 100) = true.

(** The exception of [percent_to_graph] for a percentage out of range. *)
Definition invalid_percent : exn := ValueError "Percent must be between 0 and 100.".

(** [round((percent / 100) * total_chars)], as [percent_to_graph] computes it. *)
Definition filled_length_of (percent : num) (total_chars : Z) : result Z :=
  let* fraction := truediv percent (Int 100) in
  let* filled := mul fraction (Int total_chars) in
  round filled.

(** [filled_length] characters [=] followed by spaces up to [total_chars]. *)
Definition bar (filled_length total_chars : Z) : string :=
  PyStr.repeat_char "="%char filled_length
  ++ PyStr.repeat_char " "%char (total_chars - filled_length).

(** The number [tenths / 10] written with one decimal. *)
Definition decimal1 (tenths : Z) : string :=
  PyStr.of_chars
    (PyInt.decimal (tenths / 10) ++ "."%char :: zero_padded 1 (tenths mod 10))%list.

(** The units of [human_readable]; the multiplier of the i-th is 1024^i. *)
Definition units : list string := ["B"; "K"; "M"; "G"; "T"; "P"].

(** The least integer that is too large for a double: it lies half-way
    between the largest double and 2^1024. *)
Definition double_limit : Z := 2 ^ 1024 - 2 ^ 970.

(** A computation that raises no exception but the [allowed] ones. *)
Definition raises_only (allowed : exn -> Prop) {A : Type} (r : result A) : Prop :=
  forall e, r = Raise e -> allowed e.

(** The exceptions of float arithmetic: a result or an operand too large,
    and the rounding of a NaN. *)
Definition arithmetic_error (e : exn) : Prop :=
  e = OverflowError \/ e = ValueError "cannot convert float NaN to integer".

(** The events on the standard output. *)
Definition is_stdout (e : event) : bool :=
  match e with
  | Stdout _ => true
  | Stderr _ => false
  end.

(** The rational a finite number denotes. *)
Definition num_value (a : num) : Q :=
  match value a with
  | Some (Real q) => q
  | _ => 0%Q
  end.

(** To be the rounding of [q] to an integer: within one half of it, and
    even when at one half. *)
Definition nearest_even (q : Q) (n : Z) : Prop :=
  (inject_Z n - (1 # 2) < q < inject_Z n + (1 # 2))%Q
  \/ ((q == inject_Z n - (1 # 2) \/ q == inject_Z n + (1 # 2))%Q /\ Z.even n = true).

(** The line [size <tab> directory]. *)
Definition du_line (size directory : string) : string :=
  size ++ String tab directory.



(** * Properties *)

(** ** The built-ins on samples

    The values below are the ones the interpreter gives. *)

Section Samples.

Let sp (code : N) : string := String (ascii_of_N code) "".

Example int_accepts :
  map PyInt.int ["5"; "-5"; "+5"; " 5 "; "007"; "1_0"; sp 11 ++ "5"; sp 160 ++ "5"]
  = [Ok 5; Ok (-5); Ok 5; Ok 5; Ok 7; Ok 10; Ok 5; Ok 5].
Proof. reflexivity. Qed.

Example int_rejects :
  map PyInt.int [""; "+"; "- 5"; "_1"; "1_"; "1__0"; "5.0"; "0x10"; sp 28 ++ "5"]
  = map (fun s => Raise (InvalidLiteral s))
      [""; "+"; "- 5"; "_1"; "1_"; "1__0"; "5.0"; "0x10"; sp 28 ++ "5"].
Proof. reflexivity. Qed.

Example str_samples :
  map PyInt.str [0; 7; -5; 100; -1024; 1234567890]
  = ["0"; "7"; "-5"; "100"; "-1024"; "1234567890"].
Proof. reflexivity. Qed.

Example split_samples :
  map (PyStr.split tab) [""; "ab"; du_line "a" "b"; du_line "a" (du_line "b" "c"); sp 9]
  = [[""]; ["ab"]; ["a"; "b"]; ["a"; "b"; "c"]; [""; ""]].
Proof. reflexivity. Qed.

Example strip_sample : PyStr.strip (" a " ++ sp 28 ++ sp 133 ++ sp 160) = "a".
Proof. reflexivity. Qed.

Example truediv_samples :
  map (fun p => truediv (Int (fst p)) (Int (snd p)))
    [(0, -5); (1, 4); (2 ^ 53 + 1, 1); (2 ^ 53 + 3, 1); (1, 2 ^ 1075);
     (3, 2 ^ 1075); (2 ^ 1034, 1024); (5, 0)]
  = [Ok (Float Fnzero); Ok (Float (Ffin (1 # 4)));
     Ok (Float (Ffin (inject_Z (2 ^ 53)))); Ok (Float (Ffin (inject_Z (2 ^ 53 + 4))));
     Ok (Float (Ffin 0)); Ok (Float (Ffin (1 # 2 ^ 1073)));
     Raise OverflowError; Raise ZeroDivisionError].
Proof. vm_compute. reflexivity. Qed.

Example mul_samples :
  (mul (Float (Ffin (inject_Z (10 ^ 308)))) (Int 100),
   mul (Float (Ffin 0)) (Int (2 ^ 1024)))
  = (Ok (Float (Finf false)), Raise OverflowError).
Proof. vm_compute. reflexivity. Qed.

Example round_samples :
  map (fun q => round (Float (Ffin q))) [1 # 2; 3 # 2; 5 # 2; 7 # 2; - (1 # 2)]%Q
  = [Ok 0; Ok 2; Ok 2; Ok 4; Ok 0].
Proof. reflexivity. Qed.

Example format_f_samples :
  map (fun p => format_f (fst p) (snd p))
    [(1%nat, Int 0); (1%nat, Int (-1024)); (1%nat, Float (Ffin (1 # 4)));
     (1%nat, Float (Ffin (3 # 4))); (1%nat, Float Fnzero);
     (0%nat, Float (Ffin (5 # 2))); (0%nat, Float (Ffin (7 # 2)));
     (1%nat, Int (2 ^ 1024))]
  = [Ok "0.0"; Ok "-1024.0"; Ok "0.2"; Ok "0.8"; Ok "-0.0"; Ok "2"; Ok "4";
     Raise OverflowError].
Proof. vm_compute. reflexivity. Qed.

Example rjust_samples :
  (PyStr.rjust 8 "50K", PyStr.rjust 8 "123456789K") = ("     50K", "123456789K").
Proof. reflexivity. Qed.

Example sorted_sample :
  sorted snd true [("a", 1); ("b", 2); ("c", 1); ("d", 2)]
  = [("b", 2); ("d", 2); ("a", 1); ("c", 1)].
Proof. reflexivity. Qed.

End Samples.

(** The first scenario of the specification, end to end. *)
Example main_scenario :
  main {| Args.target := "/a"; Args.human_readable := false; Args.length := 20 |}
       {| isdir := fun _ => true;
          run_du := fun _ =>
            DuOutput (du_line "100" "/a" ++ String newline (du_line "50" "/a/x")
                      ++ String newline (du_line "50" "/a/y") ++ String newline "") |}
  = ([Stdout " 50 % [==========          ]      50K  /a/x";
      Stdout " 50 % [==========          ]      50K  /a/y";
      Stdout "Total: 100K   /a"], Returns tt).
Proof. reflexivity. Qed.

(** ** The parser *)

Section Parser.

Lemma digit_val_nonneg c : PyInt.is_digit c = true -> 0 <= PyInt.digit_val c.
Proof.
  unfold PyInt.is_digit, PyInt.digit_val. intros H.
  apply andb_true_iff in H as [H _]. apply N.leb_le in H. lia.
Qed.

Lemma int_digits_nonneg cs : forall acc b n,
  0 <= acc -> PyInt.int_digits acc b cs = Some n -> 0 <= n.
Proof.
  induction cs as [|c cs IH]; simpl; intros acc b n Hacc H.
  - destruct b; [discriminate | now inversion H; subst].
  - destruct (PyInt.is_digit c) eqn:Hd.
    + pose proof (digit_val_nonneg c Hd). refine (IH (10 * acc + PyInt.digit_val c) false n _ H). lia.
    + destruct (Ascii.eqb c "_"); [|discriminate].
      destruct b; [discriminate|]. eapply IH; eauto.
Qed.

Lemma int_magnitude_nonneg cs n : PyInt.int_magnitude cs = Some n -> 0 <= n.
Proof.
  destruct cs as [|c cs]; simpl; [discriminate|].
  destruct (PyInt.is_digit c) eqn:Hd; [|discriminate].
  apply int_digits_nonneg. now apply digit_val_nonneg.
Qed.

Lemma drop_while_incl p cs x : In x (PyStr.drop_while p cs) -> In x cs.
Proof.
  induction cs as [|c cs IH]; simpl; auto.
  destruct (p c); auto.
Qed.

Lemma strip_chars_incl p cs x : In x (PyStr.strip_chars p cs) -> In x cs.
Proof.
  unfold PyStr.strip_chars. intros H.
  apply in_rev in H. apply drop_while_incl in H. apply in_rev in H.
  now apply drop_while_incl in H.
Qed.

(** A negative result of [int()] comes from a minus sign in the literal. *)
Lemma int_negative_has_minus s n :
  PyInt.int s = Ok n -> n < 0 -> has_minus s = true.
Proof.
  unfold PyInt.int, PyInt.int_chars, has_minus. intros H Hn.
  destruct (PyStr.strip_chars PyInt.isspace (PyStr.chars s)) as [|c ds] eqn:Hs.
  - simpl in H. discriminate.
  - assert (Hin : forall x, In x (c :: ds) -> In x (PyStr.chars s)).
    { intros x Hx. rewrite <- Hs in Hx. eapply strip_chars_incl; eauto. }
    destruct (Ascii.eqb_spec c "-"%char) as [->|Hc].
    + apply existsb_exists. exists "-"%char. split; [apply Hin; now left | reflexivity].
    + exfalso.
      assert (Hm : exists m, PyInt.int_magnitude (c :: ds) = Some m /\ n = m
                             \/ PyInt.int_magnitude ds = Some m /\ n = m).
      { destruct c as [[] [] [] [] [] [] [] []];
          try (destruct (PyInt.int_magnitude _) eqn:E in H; inversion H; subst; eauto; fail).
        now contradiction Hc. }
      destruct Hm as [m [[Hm ->]|[Hm ->]]]; apply int_magnitude_nonneg in Hm; lia.
Qed.

Lemma setitem_in d k v k' v' :
  In (k', v') (setitem d k v) -> In (k', v') d \/ (k', v') = (k, v).
Proof.
  induction d as [|[k0 v0] d IH]; simpl.
  - intros [H|[]]; auto.
  - destruct (String.eqb k0 k); simpl; intros [H|H]; auto.
    destruct (IH H); auto.
Qed.

(** Every item of the mapping was read from a line of two fields. *)
Lemma create_dir_dict_from_items du_output : forall d0 d,
  create_dir_dict_from d0 du_output = Ok d ->
  forall k v, In (k, v) d ->
    In (k, v) d0 \/
    exists line size, In line du_output /\ fields line = [size; k] /\ PyInt.int size = Ok v.
Proof.
  induction du_output as [|line rest IH]; simpl; intros d0 d H k v Hin.
  - inversion H; subst; auto.
  - assert (Hskip : create_dir_dict_from d0 rest = Ok d ->
      In (k, v) d0 \/ exists line0 size, (line = line0 \/ In line0 rest)
        /\ fields line0 = [size; k] /\ PyInt.int size = Ok v).
    { intros H'. destruct (IH _ _ H' k v Hin) as [|(l & s & Hl & Hf & Hi)]; auto.
      right. exists l, s. auto. }
    destruct (PyStr.split tab line) as [|size [|directory [|f3 fs]]] eqn:Hf; auto.
    destruct (PyInt.int size) as [n|e] eqn:Hi; simpl in H; [|discriminate].
    destruct (IH _ _ H k v Hin) as [Hd|(l & s & Hl & Hf' & Hi')].
    + destruct (setitem_in _ _ _ _ _ Hd) as [|Heq]; auto.
      inversion Heq; subst. right. exists line, size. auto.
    + right. exists l, s. auto.
Qed.

Lemma create_dir_dict_from_filter du_output : forall d0,
  create_dir_dict_from d0 du_output
  = create_dir_dict_from d0 (filter well_shaped du_output).
Proof.
  induction du_output as [|line rest IH]; simpl; intros d0; auto.
  unfold well_shaped, fields.
  destruct (PyStr.split tab line) as [|size [|directory [|f3 fs]]] eqn:Hf;
    simpl; rewrite ?Hf; auto.
  destruct (PyInt.int size); simpl; auto.
Qed.



End Parser.

(** C2, as the code has it: every size of the mapping is what [int()] makes
    of the first field of a two-field line, so the sizes are non-negative
    when no such field holds a minus sign. *)
Theorem sizes_nonneg_without_minus du_output dir_dict :
  create_dir_dict du_output = Ok dir_dict ->
  (forall line size directory,
     In line du_output -> fields line = [size; directory] -> has_minus size = false) ->
  forall directory size_kb, In (directory, size_kb) dir_dict -> 0 <= size_kb.
Proof.
  intros Hd Hno directory size_kb Hin.
  destruct (create_dir_dict_from_items _ _ _ Hd _ _ Hin) as [[]|(l & s & Hl & Hf & Hi)].
  destruct (Z.lt_ge_cases size_kb 0) as [Hneg|]; [|lia].
  pose proof (Hno l s directory Hl Hf) as Hm.
  rewrite (int_negative_has_minus _ _ Hi Hneg) in Hm. discriminate.
Qed.

Lemma sizes_nonneg_without_minus_witness :
  create_dir_dict [du_line "100" "/a"; du_line "50" "/a/x"]
  = Ok [("/a", 100); ("/a/x", 50)]
  /\ 0 <= 50.
Proof.
  split; [reflexivity|].
  apply (sizes_nonneg_without_minus
           [du_line "100" "/a"; du_line "50" "/a/x"] [("/a", 100); ("/a/x", 50)]
           eq_refl) with (directory := "/a/x").
  - intros line size directory [<-|[<-|[]]] H; vm_compute in H; inversion H; reflexivity.
  - right; left; reflexivity.
Defined.

(** C2 as stated fails: a size field with a minus sign is read as a negative
    size. *)
Lemma negative_size_entry :
  ~ (forall du_output dir_dict,
       create_dir_dict du_output = Ok dir_dict ->
       forall directory size_kb, In (directory, size_kb) dir_dict -> 0 <= size_kb).
Proof.
  intros H.
  specialize (H [du_line "-5" "/a"] [("/a", -5)] eq_refl "/a" (-5) (or_introl eq_refl)).
  lia.
Qed.



(** C9: the lines that are not two tab-separated fields leave no trace in
    the mapping. *)
Theorem malformed_lines_dropped du_output :
  create_dir_dict du_output = create_dir_dict (filter well_shaped du_output)
  /\ forall dir_dict,
       create_dir_dict du_output = Ok dir_dict ->
       forall directory size_kb, In (directory, size_kb) dir_dict ->
       exists line size,
         In line du_output /\ fields line = [size; directory]
         /\ PyInt.int size = Ok size_kb.
Proof.
  split.
  - apply create_dir_dict_from_filter.
  - intros d Hd k v Hin.
    destruct (create_dir_dict_from_items _ _ _ Hd _ _ Hin) as [[]|]; auto.
Qed.

Lemma malformed_lines_dropped_witness :
  exists line size,
    In line [du_line "100" "/a"; "total"; du_line "50" "/a/x"]
    /\ fields line = [size; "/a/x"] /\ PyInt.int size = Ok 50.
Proof.
  apply (proj2 (malformed_lines_dropped
                  [du_line "100" "/a"; "total"; du_line "50" "/a/x"])
           [("/a", 100); ("/a/x", 50)] eq_refl).
  right; left; reflexivity.
Defined.

(** ** The order of the rows *)

Section Sorting.

Context {A : Type} (key : A -> Z).

Lemma insert_by_perm x l : Permutation (x :: l) (insert_by key x l).
Proof.
  induction l as [|y l IH]; simpl; auto.
  destruct (key x <=? key y); auto.
  eapply perm_trans; [apply perm_swap|]. now constructor.
Qed.

Lemma sort_by_perm l : Permutation l (sort_by key l).
Proof.
  induction l as [|x l IH]; simpl; auto.
  eapply perm_trans; [|apply insert_by_perm]. now constructor.
Qed.

Lemma insert_by_sorted x l :
  StronglySorted (ascending_by key) l ->
  StronglySorted (ascending_by key) (insert_by key x l).
Proof.
  induction 1 as [|y l Hs IH Hy]; simpl.
  - repeat constructor.
  - destruct (Z.leb_spec (key x) (key y)) as [Hle|Hgt].
    + constructor; [now constructor|].
      constructor; auto.
      eapply Forall_impl; [|exact Hy]. unfold ascending_by. intros; lia.
    + constructor; auto.
      eapply Permutation_Forall; [apply insert_by_perm|].
      constructor; auto. unfold ascending_by. lia.
Qed.

Lemma sort_by_sorted l : StronglySorted (ascending_by key) (sort_by key l).
Proof.
  induction l; simpl; [constructor | now apply insert_by_sorted].
Qed.

Lemma sorted_snoc (R : A -> A -> Prop) l y :
  StronglySorted R l -> Forall (fun x => R x y) l -> StronglySorted R (l ++ [y]).
Proof.
  induction 1 as [|x l Hs IH Hx]; simpl; intros Hy.
  - repeat constructor.
  - inversion Hy; subst. constructor; auto.
    apply Forall_app. split; auto.
Qed.

Lemma sorted_rev l :
  StronglySorted (ascending_by key) l -> StronglySorted (descending_by key) (rev l).
Proof.
  induction 1 as [|y l Hs IH Hy]; simpl; [constructor|].
  apply sorted_snoc; auto. now apply Forall_rev.
Qed.

(** Inserting does not move an element past one with the same key. *)
Lemma insert_by_stable k x l :
  with_key key k (insert_by key x l) = with_key key k (x :: l).
Proof.
  unfold with_key. induction l as [|y l IH]; simpl; auto.
  destruct (Z.leb_spec (key x) (key y)) as [Hle|Hgt]; simpl; auto.
  rewrite IH. simpl.
  destruct (Z.eqb_spec (key y) k), (Z.eqb_spec (key x) k); auto. lia.
Qed.

Lemma sort_by_stable k l : with_key key k (sort_by key l) = with_key key k l.
Proof.
  induction l as [|x l IH]; simpl; auto.
  rewrite insert_by_stable. unfold with_key in *. simpl. now rewrite IH.
Qed.

(** [sorted(l, key=key, reverse=True)] is [l] rearranged by descending key,
    elements of equal key in the order they have in [l]. *)
Lemma sorted_reverse_spec l :
  StronglySorted (descending_by key) (sorted key true l)
  /\ Permutation l (sorted key true l)
  /\ forall k, with_key key k (sorted key true l) = with_key key k l.
Proof.
  unfold sorted. repeat split.
  - apply sorted_rev, sort_by_sorted.
  - eapply perm_trans; [apply Permutation_rev|].
    eapply perm_trans; [apply sort_by_perm|]. apply Permutation_rev.
  - intros k. unfold with_key. rewrite filter_rev.
    fold (with_key key k (sort_by key (rev l))). rewrite sort_by_stable.
    unfold with_key. rewrite filter_rev. apply rev_involutive.
Qed.

Lemma with_key_head k x l :
  with_key key k (x :: l) = if key x =? k then x :: with_key key k l else with_key key k l.
Proof. reflexivity. Qed.

Lemma with_key_in k x l : In x (with_key key k l) -> In x l /\ key x = k.
Proof.
  unfold with_key. intros H. apply filter_In in H as [H1 H2].
  apply Z.eqb_eq in H2. auto.
Qed.

(** The three properties leave no choice: two stable descending
    arrangements of the same list are equal, so the result of [sorted] does
    not depend on the algorithm that computes it. *)
Lemma stable_sort_unique l1 : forall l2,
  StronglySorted (descending_by key) l1 ->
  StronglySorted (descending_by key) l2 ->
  (forall k, with_key key k l1 = with_key key k l2) ->
  l1 = l2.
Proof.
  induction l1 as [|x l1 IH]; intros l2 H1 H2 Hk.
  - destruct l2 as [|y l2]; auto.
    specialize (Hk (key y)). rewrite with_key_head, Z.eqb_refl in Hk. discriminate.
  - destruct l2 as [|y l2].
    { specialize (Hk (key x)). rewrite with_key_head, Z.eqb_refl in Hk. discriminate. }
    inversion H1 as [|? ? H1' Hx]; subst. inversion H2 as [|? ? H2' Hy]; subst.
    assert (Hxy : key x = key y).
    { assert (Hle1 : key x <= key y).
      { pose proof (Hk (key x)) as E. rewrite !with_key_head, Z.eqb_refl in E.
        destruct (Z.eqb_spec (key y) (key x)); [lia|].
        assert (Hin : In x (with_key key (key x) l2)) by (rewrite <- E; now left).
        apply with_key_in in Hin as [Hin _].
        rewrite Forall_forall in Hy. apply Hy in Hin. exact Hin. }
      assert (Hle2 : key y <= key x).
      { pose proof (Hk (key y)) as E. rewrite !with_key_head, Z.eqb_refl in E.
        destruct (Z.eqb_spec (key x) (key y)); [lia|].
        assert (Hin : In y (with_key key (key y) l1)) by (rewrite E; now left).
        apply with_key_in in Hin as [Hin _].
        rewrite Forall_forall in Hx. apply Hx in Hin. exact Hin. }
      lia. }
    assert (x = y /\ forall k, with_key key k l1 = with_key key k l2) as [-> Hk'].
    { split.
      - pose proof (Hk (key x)) as E. rewrite !with_key_head, <- Hxy, Z.eqb_refl in E.
        now inversion E.
      - intros k. pose proof (Hk k) as E. rewrite !with_key_head, <- Hxy in E.
        destruct (key x =? k); [now inversion E | exact E]. }
    f_equal. now apply IH.
Qed.

End Sorting.

Section InsertionOrder.

Lemma setitem_new d k v : ~ In k (keys d) -> setitem d k v = (d ++ [(k, v)])%list.
Proof.
  induction d as [|[k0 v0] d IH]; simpl; intros Hk; auto.
  destruct (String.eqb_spec k0 k) as [->|Hne]; [tauto|].
  f_equal. apply IH. tauto.
Qed.



End InsertionOrder.



(** ** Rounding to a double *)

Section RoundEven.

Local Open Scope Q_scope.

Lemma round_even_floor q :
  round_even q = Qfloor q \/ round_even q = (Qfloor q + 1)%Z.
Proof.
  unfold round_even. destruct (Qcompare _ _); auto. destruct (Z.even _); auto.
Qed.

(** The rounded integer is within one half of the number. *)
Lemma round_even_near q :
  inject_Z (round_even q) - (1 # 2) <= q <= inject_Z (round_even q) + (1 # 2).
Proof.
  pose proof (Qfloor_le q) as Hlo. pose proof (Qlt_floor q) as Hhi.
  rewrite inject_Z_plus in Hhi. change (inject_Z 1) with 1 in Hhi.
  unfold round_even.
  destruct (Qcompare_spec (q - inject_Z (Qfloor q)) (1 # 2)) as [E|E|E];
    try destruct (Z.even _); rewrite ?inject_Z_plus; change (inject_Z 1) with 1; lra.
Qed.

Global Instance round_even_comp : Proper (Qeq ==> eq) round_even.
Proof.
  intros p q E. unfold round_even. rewrite (Qfloor_comp _ _ E).
  assert (C : Qcompare (p - inject_Z (Qfloor q)) (1 # 2)
              = Qcompare (q - inject_Z (Qfloor q)) (1 # 2)) by now rewrite E.
  now rewrite C.
Qed.

Lemma round_even_Z n : round_even (inject_Z n) = n.
Proof.
  unfold round_even. rewrite Qfloor_Z.
  destruct (Qcompare_spec (inject_Z n - inject_Z n) (1 # 2)) as [E|E|E]; auto; lra.
Qed.

Lemma round_even_le p q : p <= q -> (round_even p <= round_even q)%Z.
Proof.
  intros Hpq. pose proof (Qfloor_resp_le _ _ Hpq) as Hf.
  destruct (Z.eq_dec (Qfloor p) (Qfloor q)) as [E|NE].
  - unfold round_even. rewrite E.
    destruct (Qcompare_spec (p - inject_Z (Qfloor q)) (1 # 2)) as [Ep|Ep|Ep],
             (Qcompare_spec (q - inject_Z (Qfloor q)) (1 # 2)) as [Eq|Eq|Eq];
      try destruct (Z.even _); try lia; lra.
  - destruct (round_even_floor p) as [-> | ->], (round_even_floor q) as [-> | ->]; lia.
Qed.

End RoundEven.

Section Pow2.

Local Open Scope Q_scope.

Lemma pow2_pos e : 0 < 2 ^ e.
Proof. apply Qpower_0_lt. reflexivity. Qed.

Lemma pow2_add a b : 2 ^ (a + b) == 2 ^ a * 2 ^ b.
Proof. apply Qpower_plus. discriminate. Qed.

Lemma pow2_succ a : 2 ^ (a + 1) == 2 * 2 ^ a.
Proof. rewrite pow2_add. change (2 ^ 1) with 2. ring. Qed.

Lemma pow2_le a b : (a <= b)%Z -> 2 ^ a <= 2 ^ b.
Proof. intros H. apply Qpower_le_compat_l; [exact H | discriminate]. Qed.

Lemma pow2_lt a b : (a < b)%Z -> 2 ^ a < 2 ^ b.
Proof. intros H. apply Qpower_lt_compat_l; [exact H | reflexivity]. Qed.

Lemma pow2_Z n : (0 <= n)%Z -> 2 ^ n == inject_Z (2 ^ n).
Proof. intros H. symmetry. now apply Zpower_Qpower. Qed.

Lemma pow2_sub a b : 2 ^ (a - b) == 2 ^ a / 2 ^ b.
Proof.
  pose proof (pow2_pos b) as Hb.
  assert (E : 2 ^ a == 2 ^ (a - b) * 2 ^ b).
  { rewrite <- pow2_add. now replace (a - b + b)%Z with a by ring. }
  rewrite E. field. lra.
Qed.

(** An exponent is determined by the binade. *)
Lemma pow2_binade_unique q e e' :
  2 ^ e <= q < 2 ^ (e + 1) -> 2 ^ e' <= q < 2 ^ (e' + 1) -> e = e'.
Proof.
  intros [H1 H2] [H1' H2'].
  destruct (Z.lt_trichotomy e e') as [H|[H|H]]; auto; exfalso.
  - assert (2 ^ (e + 1) <= 2 ^ e') by (apply pow2_le; lia). lra.
  - assert (2 ^ (e' + 1) <= 2 ^ e) by (apply pow2_le; lia). lra.
Qed.

Lemma Zlog2_Q n : (0 < n)%Z ->
  2 ^ Z.log2 n <= inject_Z n < 2 ^ (Z.log2 n + 1).
Proof.
  intros Hn. destruct (Z.log2_spec n Hn) as [H1 H2].
  pose proof (Z.log2_nonneg n).
  rewrite !pow2_Z by lia. rewrite <- Zle_Qle, <- Zlt_Qlt.
  replace (Z.log2 n + 1)%Z with (Z.succ (Z.log2 n)) by lia. auto.
Qed.

Lemma ilog2_spec q : 0 < q -> 2 ^ ilog2 q <= q < 2 ^ (ilog2 q + 1).
Proof.
  intros Hq. unfold ilog2.
  destruct q as [n d]. simpl Qnum. simpl Qden.
  assert (Hn : (0 < n)%Z) by (unfold Qlt in Hq; simpl in Hq; lia).
  destruct (Zlog2_Q n Hn) as [Hn1 Hn2].
  destruct (Zlog2_Q (Zpos d) eq_refl) as [Hd1 Hd2].
  set (ln := Z.log2 n) in *. set (ld := Z.log2 (Zpos d)) in *.
  assert (E : n # d == inject_Z n / inject_Z (Zpos d)) by apply Qmake_Qdiv.
  pose proof (pow2_pos ld) as Hpd. pose proof (pow2_pos (ln - ld)) as Hpk.
  assert (Hdpos : 0 < inject_Z (Zpos d)) by lra.
  assert (Hmul : (n # d) * inject_Z (Zpos d) == inject_Z n).
  { rewrite E. field. lra. }
  assert (Hup : n # d < 2 ^ (ln - ld + 1)).
  { assert (Hk : 2 ^ (ln - ld + 1) * 2 ^ ld == 2 ^ (ln + 1)).
    { rewrite <- pow2_add. now replace (ln - ld + 1 + ld)%Z with (ln + 1)%Z by ring. }
    pose proof (pow2_pos (ln - ld + 1)).
    apply Qnot_le_lt. intros Hc.
    assert (2 ^ (ln - ld + 1) * 2 ^ ld <= (n # d) * inject_Z (Zpos d)).
    { apply Qmult_le_compat_nonneg; split; lra. }
    lra. }
  assert (Hlow : 2 ^ (ln - ld - 1) < n # d).
  { assert (Hk : 2 ^ (ln - ld - 1) * 2 ^ (ld + 1) == 2 ^ ln).
    { rewrite <- pow2_add. now replace (ln - ld - 1 + (ld + 1))%Z with ln by ring. }
    pose proof (pow2_pos (ln - ld - 1)). pose proof (pow2_pos (ld + 1)).
    apply Qnot_le_lt. intros Hc.
    assert ((n # d) * inject_Z (Zpos d) <= 2 ^ (ln - ld - 1) * inject_Z (Zpos d)).
    { apply Qmult_le_compat_r; lra. }
    assert (2 ^ (ln - ld - 1) * inject_Z (Zpos d) < 2 ^ (ln - ld - 1) * 2 ^ (ld + 1)).
    { apply Qmult_lt_l; lra. }
    lra. }
  destruct (Qle_bool (2 ^ (ln - ld)) (n # d)) eqn:Hb.
  - apply Qle_bool_iff in Hb. split; auto.
  - assert (Hlt : n # d < 2 ^ (ln - ld)).
    { apply Qnot_le_lt. intros Hc. apply Qle_bool_iff in Hc. congruence. }
    replace (ln - ld - 1 + 1)%Z with (ln - ld)%Z by ring. split; lra.
Qed.

Lemma ilog2_unique q e : 2 ^ e <= q < 2 ^ (e + 1) -> ilog2 q = e.
Proof.
  intros H. assert (0 < q) by (pose proof (pow2_pos e); lra).
  eapply pow2_binade_unique; [apply ilog2_spec; auto | exact H].
Qed.

Lemma ilog2_comp p q : 0 < p -> p == q -> ilog2 p = ilog2 q.
Proof.
  intros Hp E. symmetry. apply ilog2_unique. rewrite <- E. now apply ilog2_spec.
Qed.

Lemma ilog2_le p q : 0 < p -> p <= q -> (ilog2 p <= ilog2 q)%Z.
Proof.
  intros Hp Hpq.
  destruct (ilog2_spec p Hp) as [H1 H2].
  destruct (ilog2_spec q ltac:(lra)) as [H3 H4].
  destruct (Z.le_gt_cases (ilog2 p) (ilog2 q)) as [|H]; auto.
  assert (2 ^ (ilog2 q + 1) <= 2 ^ ilog2 p) by (apply pow2_le; lia). lra.
Qed.

Lemma ilog2_scale q j : 0 < q -> ilog2 (q * 2 ^ j) = (ilog2 q + j)%Z.
Proof.
  intros Hq. destruct (ilog2_spec q Hq) as [H1 H2].
  pose proof (pow2_pos j) as Hj.
  apply ilog2_unique.
  replace (ilog2 q + j + 1)%Z with (ilog2 q + 1 + j)%Z by ring.
  rewrite (pow2_add (ilog2 q) j), (pow2_add (ilog2 q + 1) j). split.
  - apply Qmult_le_compat_r; lra.
  - apply Qmult_lt_compat_r; lra.
Qed.

End Pow2.

Section Round64.

Local Open Scope Q_scope.

Lemma round_to_comp e p q : p == q -> round_to e p == round_to e q.
Proof. intros E. unfold round_to. now rewrite E. Qed.

Lemma div_pow2_le e p q : p <= q -> p / 2 ^ e <= q / 2 ^ e.
Proof.
  intros H. pose proof (pow2_pos e). unfold Qdiv.
  apply Qmult_le_compat_r; auto. apply Qlt_le_weak, Qinv_lt_0_compat. auto.
Qed.

Lemma round_to_le e p q : p <= q -> round_to e p <= round_to e q.
Proof.
  intros H. unfold round_to. pose proof (pow2_pos e).
  apply Qmult_le_compat_r; [|lra].
  rewrite <- Zle_Qle. apply round_even_le. now apply div_pow2_le.
Qed.

Lemma round_to_grid e m : round_to e (inject_Z m * 2 ^ e) == inject_Z m * 2 ^ e.
Proof.
  unfold round_to. pose proof (pow2_pos e).
  assert (E : inject_Z m * 2 ^ e / 2 ^ e == inject_Z m) by (field; lra).
  rewrite E, round_even_Z. reflexivity.
Qed.

Lemma pow2_grid e n : (e <= n)%Z -> 2 ^ n == inject_Z (2 ^ (n - e)) * 2 ^ e.
Proof.
  intros H. rewrite <- pow2_Z by lia. rewrite <- pow2_add.
  now replace (n - e + e)%Z with n by ring.
Qed.

Lemma round_to_pow2 e n : (e <= n)%Z -> round_to e (2 ^ n) == 2 ^ n.
Proof.
  intros H. rewrite (round_to_comp e _ _ (pow2_grid e n H)), round_to_grid.
  symmetry. now apply pow2_grid.
Qed.

Lemma round_to_zero e q : q == 0 -> round_to e q == 0.
Proof.
  intros E. rewrite (round_to_comp e q (inject_Z 0 * 2 ^ e)), round_to_grid.
  - change (inject_Z 0) with 0. ring.
  - rewrite E. change (inject_Z 0) with 0. ring.
Qed.

Lemma round_to_nonneg e q : 0 <= q -> 0 <= round_to e q.
Proof.
  intros H. rewrite <- (round_to_zero e 0) by reflexivity. now apply round_to_le.
Qed.

(** Rounding to a multiple of 2^e moves a number by at most half of 2^e. *)
Lemma round_to_near e q :
  round_to e q - 2 ^ e / 2 <= q <= round_to e q + 2 ^ e / 2.
Proof.
  unfold round_to. pose proof (pow2_pos e) as He.
  pose proof (round_even_near (q / 2 ^ e)) as [H1 H2].
  set (m := inject_Z (round_even (q / 2 ^ e))) in *.
  assert (E : q == q / 2 ^ e * 2 ^ e) by (field; lra).
  assert (L : (m - (1 # 2)) * 2 ^ e <= q / 2 ^ e * 2 ^ e)
    by (apply Qmult_le_compat_r; lra).
  assert (U : q / 2 ^ e * 2 ^ e <= (m + (1 # 2)) * 2 ^ e)
    by (apply Qmult_le_compat_r; lra).
  rewrite <- E in L, U.
  split; [eapply Qle_trans; [|exact L] | eapply Qle_trans; [exact U|]];
    (apply Qle_lteq; right; field).
Qed.

Lemma fexp_pos q : 0 < q -> fexp q = Z.max (ilog2 q - 52) (-1074).
Proof.
  intros H. unfold fexp. f_equal. f_equal.
  apply ilog2_comp; rewrite Qabs_pos; lra.
Qed.

Lemma fexp_comp p q : ~ p == 0 -> p == q -> fexp p = fexp q.
Proof.
  intros Hp E. unfold fexp. f_equal. f_equal.
  apply ilog2_comp; [|now rewrite E].
  destruct (Qlt_le_dec 0 (Qabs p)) as [|H]; auto.
  exfalso. apply Hp. pose proof (Qabs_nonneg p).
  assert (Ha : Qabs p == 0) by lra.
  destruct (Qabs_Qle_condition p 0) as [Hc _]. 
  assert (- 0 <= p <= 0) by (apply Hc; lra). lra.
Qed.

Lemma round64_zero q : q == 0 -> round64 q == 0.
Proof. apply round_to_zero. Qed.

Lemma round64_comp p q : p == q -> round64 p == round64 q.
Proof.
  intros E. destruct (Qeq_dec p 0) as [Hp|Hp].
  - rewrite !round64_zero; [reflexivity | now rewrite <- E | assumption].
  - unfold round64. rewrite (fexp_comp p q Hp E). now apply round_to_comp.
Qed.

#[global] Instance round64_proper : Proper (Qeq ==> Qeq) round64.
Proof. intros p q E. now apply round64_comp. Qed.

Lemma round64_nonneg q : 0 <= q -> 0 <= round64 q.
Proof. apply round_to_nonneg. Qed.

(** Rounding to a double is monotone. *)
Lemma round64_le p q : 0 <= p -> p <= q -> round64 p <= round64 q.
Proof.
  intros Hp Hpq.
  destruct (Qeq_dec p 0) as [Hz|Hnz].
  { rewrite (round64_zero p Hz). apply round64_nonneg. lra. }
  assert (Hp' : 0 < p) by (destruct (Qlt_le_dec 0 p); auto; exfalso; apply Hnz; lra).
  assert (Hq' : 0 < q) by lra.
  unfold round64. rewrite (fexp_pos p Hp'), (fexp_pos q Hq').
  pose proof (ilog2_le p q Hp' Hpq) as He.
  destruct (ilog2_spec p Hp') as [_ Hp2]. destruct (ilog2_spec q Hq') as [Hq1 _].
  set (ep := ilog2 p) in *. set (eq := ilog2 q) in *.
  destruct (Z.eq_dec (Z.max (ep - 52) (-1074)) (Z.max (eq - 52) (-1074))) as [E|NE].
  - rewrite E. now apply round_to_le.
  - assert (Hlt : (ep < eq)%Z) by lia.
    assert (Hb1 : 2 ^ (ep + 1) <= 2 ^ eq) by (apply pow2_le; lia).
    apply Qle_trans with (2 ^ eq).
    + rewrite <- (round_to_pow2 (Z.max (ep - 52) (-1074)) eq) by lia.
      apply round_to_le. lra.
    + rewrite <- (round_to_pow2 (Z.max (eq - 52) (-1074)) eq) at 1 by lia.
      now apply round_to_le.
Qed.

(** A number on the grid of its own binade is a double. *)
Lemma round64_grid q m g :
  q == inject_Z m * 2 ^ g -> (fexp q <= g)%Z -> round64 q == q.
Proof.
  intros E Hg. unfold round64.
  assert (E' : q == inject_Z (m * 2 ^ (g - fexp q)) * 2 ^ fexp q).
  { rewrite inject_Z_mult, <- pow2_Z by lia. rewrite <- Qmult_assoc, <- pow2_add.
    now replace (g - fexp q + fexp q)%Z with g by ring. }
  rewrite (round_to_comp _ _ _ E'), round_to_grid. now symmetry.
Qed.

(** The integers of at most 53 bits are doubles. *)
Lemma round64_int n : (0 <= n <= 2 ^ 53)%Z -> round64 (inject_Z n) == inject_Z n.
Proof.
  intros [H0 H53].
  destruct (Z.eq_dec n 0) as [->|Hn]; [now apply round64_zero|].
  assert (Hpos : 0 < inject_Z n) by (change 0 with (inject_Z 0); rewrite <- Zlt_Qlt; lia).
  destruct (Z.eq_dec n (2 ^ 53)) as [->|Hn'].
  - apply (round64_grid _ (2 ^ 52) 1); [reflexivity|]. vm_compute. discriminate.
  - apply (round64_grid _ n 0); [change (2 ^ 0) with 1; ring|].
    rewrite fexp_pos by assumption.
    destruct (ilog2_spec _ Hpos) as [H1 _].
    assert (Hlt : inject_Z n < 2 ^ 53).
    { rewrite pow2_Z by lia. rewrite <- Zlt_Qlt. lia. }
    assert (He : (ilog2 (inject_Z n) < 53)%Z).
    { destruct (Z.lt_ge_cases (ilog2 (inject_Z n)) 53) as [|Hge]; auto.
      assert (2 ^ 53 <= 2 ^ ilog2 (inject_Z n)) by (apply pow2_le; lia). lra. }
    lia.
Qed.

End Round64.

Section Scaling.

Local Open Scope Q_scope.

Lemma round_to_scale e j q : round_to (e + j) (q * 2 ^ j) == round_to e q * 2 ^ j.
Proof.
  unfold round_to. pose proof (pow2_pos e). pose proof (pow2_pos j).
  assert (E : q * 2 ^ j / 2 ^ (e + j) == q / 2 ^ e).
  { rewrite pow2_add. field. lra. }
  rewrite E, pow2_add. ring.
Qed.

(** Away from the subnormal range, scaling by a power of two commutes with
    rounding. *)
Lemma round64_scale q j :
  0 < q -> (-1074 <= ilog2 q - 52)%Z -> (-1074 <= ilog2 q + j - 52)%Z ->
  round64 (q * 2 ^ j) == round64 q * 2 ^ j.
Proof.
  intros Hq H1 H2. unfold round64.
  assert (Hqj : 0 < q * 2 ^ j) by (apply Qmult_lt_0_compat; [auto | apply pow2_pos]).
  rewrite (fexp_pos _ Hqj), (fexp_pos _ Hq), ilog2_scale by auto.
  replace (Z.max (ilog2 q + j - 52) (-1074)) with (Z.max (ilog2 q - 52) (-1074) + j)%Z by lia.
  apply round_to_scale.
Qed.

(** A rounded number stays in the closed binade of the number. *)
Lemma round64_binade q :
  0 < q -> (-1074 <= ilog2 q - 52)%Z ->
  2 ^ ilog2 q <= round64 q <= 2 ^ (ilog2 q + 1).
Proof.
  intros Hq He. destruct (ilog2_spec q Hq) as [H1 H2].
  unfold round64. rewrite (fexp_pos q Hq).
  replace (Z.max (ilog2 q - 52) (-1074)) with (ilog2 q - 52)%Z by lia.
  split.
  - rewrite <- (round_to_pow2 (ilog2 q - 52) (ilog2 q)) at 1 by lia.
    now apply round_to_le.
  - rewrite <- (round_to_pow2 (ilog2 q - 52) (ilog2 q + 1)) by lia.
    apply round_to_le. lra.
Qed.

(** Rounding twice is rounding once. *)
Lemma round64_idem q :
  0 < q -> (-1074 <= ilog2 q - 52)%Z -> round64 (round64 q) == round64 q.
Proof.
  intros Hq He. destruct (round64_binade q Hq He) as [H1 H2].
  pose proof (pow2_pos (ilog2 q)) as Hp.
  assert (Hr : 0 < round64 q) by lra.
  destruct (Qlt_le_dec (round64 q) (2 ^ (ilog2 q + 1))) as [Hlt|Hge].
  - apply (round64_grid _ (round_even (q / 2 ^ (ilog2 q - 52))) (ilog2 q - 52)).
    + unfold round64. rewrite (fexp_pos q Hq).
      replace (Z.max (ilog2 q - 52) (-1074)) with (ilog2 q - 52)%Z by lia.
      reflexivity.
    + rewrite (fexp_pos _ Hr), (ilog2_unique (round64 q) (ilog2 q)) by (split; auto). lia.
  - assert (E : round64 q == 2 ^ (ilog2 q + 1)) by lra.
    apply (round64_grid _ (2 ^ 52) (ilog2 q + 1 - 52)).
    + rewrite E, <- pow2_Z, <- pow2_add by lia.
      now replace (52 + (ilog2 q + 1 - 52))%Z with (ilog2 q + 1)%Z by ring.
    + rewrite (fexp_pos _ Hr), (ilog2_unique (round64 q) (ilog2 q + 1)).
      * lia.
      * rewrite E. split; [lra|]. apply pow2_lt. lia.
Qed.

(** The relative error of rounding is at most 2^-53. *)
Lemma round64_error q :
  0 < q -> (-1074 <= ilog2 q - 52)%Z ->
  Qabs (round64 q - q) <= q / 2 ^ 53.
Proof.
  intros Hq He. destruct (ilog2_spec q Hq) as [H1 _].
  unfold round64. rewrite (fexp_pos q Hq).
  replace (Z.max (ilog2 q - 52) (-1074)) with (ilog2 q - 52)%Z by lia.
  pose proof (round_to_near (ilog2 q - 52) q) as [Hlo Hhi].
  assert (E : 2 ^ (ilog2 q - 52) / 2 == 2 ^ ilog2 q / 2 ^ 53).
  { replace (ilog2 q - 52)%Z with (ilog2 q + 1 - 53)%Z by ring.
    rewrite pow2_sub, pow2_succ. field. }
  rewrite E in Hlo, Hhi.
  assert (Hb : 2 ^ ilog2 q / 2 ^ 53 <= q / 2 ^ 53) by now apply div_pow2_le.
  apply Qabs_Qle_condition. split; lra.
Qed.

End Scaling.

(** ** Float arithmetic of the program *)

Section Floats.

Local Open Scope Q_scope.

Lemma overflows_false r : Qabs r < 2 ^ 1024 -> overflows r = false.
Proof.
  intros H. unfold overflows. destruct (Qle_bool _ _) eqn:E; auto.
  apply Qle_bool_iff in E. lra.
Qed.

Lemma overflows_true r : 2 ^ 1024 <= Qabs r -> overflows r = true.
Proof. intros H. unfold overflows. now apply Qle_bool_iff. Qed.

(** Below the overflow threshold, [rounded] is the finite double [round64]. *)
Lemma rounded_finite neg q :
  Qabs (round64 q) < 2 ^ 1024 ->
  exists r, finite_val (rounded neg q) = Some r /\ r == round64 q.
Proof.
  intros H. unfold rounded.
  pose proof (Qred_correct (round64 q)) as E.
  rewrite overflows_false by now rewrite E.
  destruct (Qeq_bool (Qred (round64 q)) 0) eqn:Hz.
  - apply Qeq_bool_iff in Hz. exists 0. split.
    + now destruct neg.
    + now rewrite <- E, Hz.
  - exists (Qred (round64 q)). split; [reflexivity | exact E].
Qed.

Lemma finite_not_inf x r : finite_val x = Some r -> forall neg, x <> Finf neg.
Proof. intros H neg ->. discriminate. Qed.

Lemma pow2_53_lt_1024 (b : Z) : (b <= 2 ^ 53)%Z -> inject_Z b < 2 ^ 1024.
Proof.
  intros H. apply Qle_lt_trans with (2 ^ 53).
  - rewrite pow2_Z by lia. now rewrite <- Zle_Qle.
  - apply pow2_lt. lia.
Qed.

(** A non-negative result below an integer of at most 53 bits stays below
    it when rounded. *)
Lemma rounded_between neg q (b : Z) :
  0 <= q <= inject_Z b -> (b <= 2 ^ 53)%Z ->
  exists r, finite_val (rounded neg q) = Some r /\ r == round64 q
            /\ 0 <= r <= inject_Z b.
Proof.
  intros [H0 Hb] H53.
  assert (Hb0 : (0 <= b)%Z) by (rewrite Zle_Qle; change (inject_Z 0) with 0; lra).
  assert (Hr : 0 <= round64 q <= inject_Z b).
  { split; [now apply round64_nonneg|].
    rewrite <- (round64_int b) by lia. now apply round64_le. }
  destruct (rounded_finite neg q) as (r & Hf & Hr').
  - rewrite Qabs_pos by tauto. pose proof (pow2_53_lt_1024 b H53). lra.
  - exists r. repeat split; auto; rewrite Hr'; tauto.
Qed.

Lemma finite_value x r : finite_val x = Some r -> value (Float x) = Some (Real r).
Proof. destruct x; simpl; intros H; inversion H; subst; auto. Qed.


(** The numbers that pass the test [0 <= percent <= 100]. *)
Lemma valid_percent_cases p :
  le (Int 0) p = true -> le p (Int 100) = true ->
  (exists n, p = Int n /\ (0 <= n <= 100)%Z)
  \/ (exists x r, p = Float x /\ finite_val x = Some r /\ 0 <= r <= 100).
Proof.
  unfold le. destruct p as [n|[|neg| |q]]; simpl;
    try discriminate; intros H1 H2.
  - left. exists n. split; auto.
    apply Qle_bool_iff in H1, H2. rewrite <- Zle_Qle in H1, H2. lia.
  - destruct neg; simpl in *; discriminate.
  - right. exists Fnzero, 0. repeat split; auto; lra.
  - right. exists (Ffin q), q. apply Qle_bool_iff in H1, H2.
    change (inject_Z 0) with 0 in H1. change (inject_Z 100) with 100 in H2.
    repeat split; auto.
Qed.

Lemma fdiv_finite x y a b :
  finite_val x = Some a -> finite_val y = Some b ->
  fdiv x y = rounded (xorb (sign_bit x) (sign_bit y)) (a / b).
Proof.
  destruct x, y; simpl; intros Ha Hb; inversion Ha; inversion Hb; subst; reflexivity.
Qed.

Lemma fmul_finite x y a b :
  finite_val x = Some a -> finite_val y = Some b ->
  fmul x y = rounded (xorb (sign_bit x) (sign_bit y)) (a * b).
Proof.
  destruct x, y; simpl; intros Ha Hb; inversion Ha; inversion Hb; subst; reflexivity.
Qed.

(** Dividing a float by one of the two constants of the program. *)
Lemma truediv_float_const x m :
  m = 100%Z \/ m = 1024%Z ->
  truediv (Float x) (Int m) = Ok (Float (fdiv x (Ffin (inject_Z m)))).
Proof. intros [->| ->]; reflexivity. Qed.


(** [float(w)] for a width of at most 53 bits is exact. *)
Lemma of_int_exact w : (0 <= w <= 2 ^ 53)%Z ->
  exists y r, of_int w = Ok y /\ finite_val y = Some r /\ r == inject_Z w.
Proof.
  intros Hw.
  assert (Hq : 0 <= inject_Z w <= inject_Z w).
  { split; [|lra]. change 0 with (inject_Z 0). rewrite <- Zle_Qle. lia. }
  destruct (rounded_between (w <? 0)%Z _ w Hq ltac:(lia)) as (r & Hf & Hr & _).
  exists (rounded (w <? 0)%Z (inject_Z w)), r. split; [|split; auto].
  - unfold of_int. destruct (rounded _ _); try reflexivity. discriminate.
  - rewrite Hr. apply round64_int. lia.
Qed.


End Floats.

(** ** The bar *)

Section Bars.




Lemma percent_to_graph_bar p w :
  valid_percent p ->
  percent_to_graph p w = let* n := filled_length_of p w in Ok (bar n w).
Proof.
  intros [H1 H2]. unfold percent_to_graph, filled_length_of.
  rewrite H1, H2. cbn [andb negb].
  destruct (truediv p (Int 100)) as [fraction|]; cbn [bind]; auto.
  destruct (mul fraction (Int w)) as [filled|]; reflexivity.
Qed.

End Bars.





(** ** Human-readable sizes *)

Section Rendering.

Local Open Scope Q_scope.

Lemma format_float_nonneg q :
  0 <= q -> format_float 1 (Ffin q) = decimal1 (round_even (q * 10)).
Proof.
  intros H. unfold format_float, sign_bit.
  destruct (Qlt_le_dec q 0); [lra | reflexivity].
Qed.

Lemma format_f_float prec x : format_f prec (Float x) = Ok (format_float prec x).
Proof. reflexivity. Qed.

Lemma lt_float_1024 xq : lt (Float (Ffin xq)) (Int 1024) = negb (Qle_bool 1024 xq).
Proof. reflexivity. Qed.

Lemma finite_positive x r : finite_val x = Some r -> 0 < r -> x = Ffin r.
Proof.
  destruct x; simpl; intros H Hr; inversion H; subst; auto. lra.
Qed.

Lemma ilog2_half q : 1 # 2 <= q -> (-1 <= ilog2 q)%Z.
Proof.
  intros H. replace (-1)%Z with (ilog2 (1 # 2)) by reflexivity.
  apply ilog2_le; [reflexivity | exact H].
Qed.

Lemma pow1024_pos j : 0 < inject_Z (1024 ^ Z.of_nat j).
Proof.
  change 0 with (inject_Z 0). rewrite <- Zlt_Qlt. apply Z.pow_pos_nonneg; lia.
Qed.

Lemma pow1024_succ j :
  inject_Z (1024 ^ Z.of_nat (S j)) == 1024 * inject_Z (1024 ^ Z.of_nat j).
Proof.
  rewrite Nat2Z.inj_succ, Z.pow_succ_r by lia. now rewrite inject_Z_mult.
Qed.

(** Dividing a double of at least 1024 by 1024 is exact. *)
Lemma round64_div_1024 q :
  1 # 2 <= q -> round64 (round64 q / 1024) == round64 q / 1024.
Proof.
  intros Hq. pose proof (ilog2_half q Hq) as He.
  assert (Hq0 : 0 < q) by lra.
  change (round64 q / 1024) with (round64 q * 2 ^ (-10)).
  rewrite <- (round64_scale q (-10)) by (auto; lia).
  apply round64_idem.
  - apply Qmult_lt_0_compat; [auto | apply pow2_pos].
  - rewrite ilog2_scale by auto. lia.
Qed.

(** The loop of [human_readable] from a float on: the value is divided by
    1024 exactly until it is below 1024 or the units are used up. *)
Lemma human_readable_from_float units_left : forall q xq,
  1 # 2 <= q -> xq == round64 q -> round64 q < 2 ^ 1024 ->
  exists j v,
    (j <= List.length units_left)%nat
    /\ v == round64 q / inject_Z (1024 ^ Z.of_nat j)
    /\ human_readable_from (Float (Ffin xq)) units_left
       = Ok (decimal1 (round_even (v * 10)) ++ " "
             ++ nth j (units_left ++ ["P"]) "")%string.
Proof.
  induction units_left as [|unit rest IH]; intros q xq Hq Hx Hlim.
  - assert (H0 : 0 <= xq) by (rewrite Hx; apply round64_nonneg; lra).
    exists 0%nat, xq. repeat split; auto.
    + rewrite Hx. change (inject_Z (1024 ^ Z.of_nat 0)) with 1. field.
    + cbn [human_readable_from]. rewrite format_f_float. cbn [bind].
      now rewrite format_float_nonneg.
  - assert (H0 : 0 <= xq) by (rewrite Hx; apply round64_nonneg; lra).
    cbn [human_readable_from]. rewrite lt_float_1024.
    destruct (Qle_bool 1024 xq) eqn:Hge; cbn [negb].
    + apply Qle_bool_iff in Hge.
      assert (Hq512 : 512 <= q).
      { destruct (Qlt_le_dec q 512) as [Hlt|]; auto. exfalso.
        assert (H : round64 q <= round64 512) by (apply round64_le; lra).
        pose proof (round64_int 512 ltac:(lia)) as E512.
        change (inject_Z 512) with 512 in E512. rewrite E512 in H. lra. }
      rewrite (truediv_float_const (Ffin xq) 1024) by auto.
      change (inject_Z 1024) with 1024.
      rewrite (fdiv_finite (Ffin xq) (Ffin 1024) xq 1024 eq_refl eq_refl).
      assert (Hr : round64 (xq / 1024) == round64 (q / 1024)).
      { rewrite (round64_comp (xq / 1024) (round64 q / 1024)) by now rewrite Hx.
        rewrite round64_div_1024 by lra.
        change (round64 q / 1024) with (round64 q * 2 ^ (-10)).
        change (q / 1024) with (q * 2 ^ (-10)).
        pose proof (ilog2_half q ltac:(lra)).
        symmetry. apply round64_scale; [lra | lia | lia]. }
      assert (Hr' : round64 (q / 1024) == round64 q / 1024).
      { change (round64 q / 1024) with (round64 q * 2 ^ (-10)).
        change (q / 1024) with (q * 2 ^ (-10)).
        pose proof (ilog2_half q ltac:(lra)).
        apply round64_scale; [lra | lia | lia]. }
      assert (Hbig : 1 <= round64 q / 1024).
      { rewrite <- Hx. apply Qle_shift_div_l; lra. }
      assert (Hsmall : round64 q / 1024 < 2 ^ 1024).
      { apply Qle_lt_trans with (round64 q); [|exact Hlim].
        apply Qle_shift_div_r; lra. }
      destruct (rounded_finite
                  (xorb (sign_bit (Ffin xq)) (sign_bit (Ffin 1024))) (xq / 1024))
        as (r & Hf & Hrr).
      { rewrite Hr, Hr', Qabs_pos; lra. }
      rewrite (finite_positive _ r Hf) by (rewrite Hrr, Hr, Hr'; lra).
      destruct (IH (q / 1024) r) as (j & v & Hj & Hv & Hout).
      * apply Qle_shift_div_l; lra.
      * now rewrite Hrr.
      * rewrite Hr'. exact Hsmall.
      * exists (S j), v. repeat split.
        -- simpl. lia.
        -- rewrite Hv, Hr', pow1024_succ. field.
           pose proof (pow1024_pos j). lra.
        -- cbn [bind]. exact Hout.
    + exists 0%nat, xq. repeat split; [simpl; lia | |].
      * rewrite Hx. change (inject_Z (1024 ^ Z.of_nat 0)) with 1. field.
      * rewrite format_f_float. cbn [bind]. now rewrite format_float_nonneg.
Qed.

End Rendering.

Section Kilobytes.

Local Open Scope Q_scope.

Lemma inject_Z_nonneg k : (0 <= k)%Z -> 0 <= inject_Z k.
Proof. intros H. change 0 with (inject_Z 0). now rewrite <- Zle_Qle. Qed.

Lemma inject_Z_ge_1 k : (1 <= k)%Z -> 1 <= inject_Z k.
Proof. intros H. change 1 with (inject_Z 1). now rewrite <- Zle_Qle. Qed.

(** Every integer below [double_limit] rounds to a finite double. *)
Lemma round64_below_limit k :
  (0 <= k < double_limit)%Z -> round64 (inject_Z k) < 2 ^ 1024.
Proof.
  intros [H0 Hk].
  apply Qle_lt_trans with (round64 (inject_Z (double_limit - 1))).
  - apply round64_le; [now apply inject_Z_nonneg|]. rewrite <- Zle_Qle. lia.
  - unfold Qlt. vm_compute. reflexivity.
Qed.

Lemma round64_ge_1 q : 1 <= q -> 1 <= round64 q.
Proof.
  intros H. pose proof (round64_int 1 ltac:(lia)) as E.
  change (inject_Z 1) with 1 in E. rewrite <- E. apply round64_le; lra.
Qed.

Lemma truediv_kb k :
  (1 <= k < double_limit)%Z ->
  exists xq, truediv (Int (k * 1024)) (Int 1024) = Ok (Float (Ffin xq))
             /\ xq == round64 (inject_Z k).
Proof.
  intros [H1 Hk].
  assert (E : inject_Z (k * 1024) / inject_Z 1024 == inject_Z k).
  { rewrite inject_Z_mult. change (inject_Z 1024) with 1024. field. }
  pose proof (round64_below_limit k ltac:(lia)) as Hlim.
  pose proof (round64_ge_1 _ (inject_Z_ge_1 k H1)) as Hge.
  destruct (rounded_finite (xorb (k * 1024 <? 0)%Z (1024 <? 0)%Z)
              (inject_Z (k * 1024) / inject_Z 1024)) as (r & Hf & Hr).
  { rewrite E, Qabs_pos; lra. }
  rewrite E in Hr.
  exists r. split; auto.
  unfold truediv. change (1024 =? 0)%Z with false. cbv iota.
  rewrite (finite_positive _ r Hf) by lra. reflexivity.
Qed.

Lemma lt_kb k : (1 <= k)%Z -> lt (Int (k * 1024)) (Int 1024) = false.
Proof.
  intros H. unfold lt, value, ereal_le.
  replace (Qle_bool (inject_Z 1024) (inject_Z (k * 1024))) with true; auto.
  symmetry. apply Qle_bool_iff. rewrite <- Zle_Qle. lia.
Qed.

(** The rendered tenths are within half a tenth of the value. *)
Lemma tenths_near v :
  Qabs (inject_Z (round_even (v * 10)) / 10 - v) <= 1 # 20.
Proof.
  destruct (round_even_near (v * 10)) as [H1 H2].
  apply Qabs_Qle_condition. 
  set (t := inject_Z (round_even (v * 10))) in *.
  assert (E : t / 10 - v == (t - v * 10) / 10) by field.
  rewrite E. split; [apply Qle_shift_div_l | apply Qle_shift_div_r]; lra.
Qed.

(** The rendering of a size that a double holds. *)
Lemma human_readable_rendering k :
  (0 <= k < double_limit)%Z ->
  exists i tenths,
    (i <= 5)%nat
    /\ human_readable k = Ok (decimal1 tenths ++ " " ++ nth i units "")%string
    /\ Qabs (inject_Z tenths / 10 * inject_Z (1024 ^ Z.of_nat i) - inject_Z (k * 1024))
       <= inject_Z (1024 ^ Z.of_nat i) / 20 + inject_Z (k * 1024) / 2 ^ 53.
Proof.
  intros [H0 Hk].
  destruct (Z.eq_dec k 0) as [->|Hnz].
  { exists 0%nat, 0%Z. split; [lia | split; [reflexivity | vm_compute; discriminate]]. }
  assert (H1 : (1 <= k)%Z) by lia.
  destruct (truediv_kb k ltac:(lia)) as (xq & Hdiv & Hxq).
  destruct (human_readable_from_float ["K"; "M"; "G"; "T"] (inject_Z k) xq)
    as (j & v & Hj & Hv & Hout); auto.
  { pose proof (inject_Z_ge_1 k H1). lra. }
  { apply round64_below_limit. lia. }
  exists (S j), (round_even (v * 10)). split; [simpl in Hj; lia|]. split.
  - unfold human_readable. cbn [human_readable_from].
    rewrite lt_kb, Hdiv by lia. cbn [bind]. exact Hout.
  - pose proof (tenths_near v) as Hd.
    pose proof (pow1024_pos j) as Hp.
    pose proof (inject_Z_ge_1 k H1) as Hk1.
    pose proof (round64_error (inject_Z k) ltac:(lra)) as Herr.
    assert (He : (-1074 <= ilog2 (inject_Z k) - 52)%Z).
    { pose proof (ilog2_half (inject_Z k) ltac:(lra)). lia. }
    specialize (Herr He).
    rewrite pow1024_succ, inject_Z_mult. change (inject_Z 1024) with 1024.
    set (P := inject_Z (1024 ^ Z.of_nat j)) in *.
    set (t := inject_Z (round_even (v * 10))) in *.
    set (R := round64 (inject_Z k)) in *.
    set (K := inject_Z k) in *.
    apply Qabs_Qle_condition in Hd, Herr. apply Qabs_Qle_condition.
    assert (EvP : v * P == R) by (rewrite Hv; field; lra).
    assert (E : t / 10 * (1024 * P) - K * 1024
                == (t / 10 - v) * (1024 * P) + 1024 * (R - K)).
    { rewrite <- EvP. ring. }
    rewrite E.
    assert (B1 : - (1 # 20) * (1024 * P) <= (t / 10 - v) * (1024 * P)).
    { apply Qmult_le_compat_r; lra. }
    assert (B2 : (t / 10 - v) * (1024 * P) <= (1 # 20) * (1024 * P)).
    { apply Qmult_le_compat_r; lra. }
    assert (E53 : K * 1024 / 2 ^ 53 == 1024 * (K / 2 ^ 53)) by field.
    rewrite E53.
    set (X := (t / 10 - v) * (1024 * P)) in *.
    set (e53 := K / 2 ^ 53) in *.
    assert (E20 : 1024 * P / 20 == (1 # 20) * (1024 * P)) by field.
    rewrite E20. split; lra.
Qed.

(** C6, within the range of a double: the rendering has one decimal, a space
    and a unit, and its value times the multiplier of the unit differs from
    the number of bytes by at most half a unit of the decimal shown plus the
    relative error 2^-53 of a double. *)
Theorem human_readable_tolerance :
  (forall k, (0 <= k < double_limit)%Z ->
     exists i tenths,
       (i <= 5)%nat
       /\ human_readable k = Ok (decimal1 tenths ++ " " ++ nth i units "")%string
       /\ Qabs (inject_Z tenths / 10 * inject_Z (1024 ^ Z.of_nat i) - inject_Z (k * 1024))
          <= inject_Z (1024 ^ Z.of_nat i) / 20 + inject_Z (k * 1024) / 2 ^ 53)
  /\ human_readable 2048 = Ok "2.0 M".
Proof. split; [exact human_readable_rendering | reflexivity]. Qed.

Lemma human_readable_tolerance_witness :
  exists i tenths,
    (i <= 5)%nat
    /\ human_readable 1536 = Ok (decimal1 tenths ++ " " ++ nth i units "")%string
    /\ Qabs (inject_Z tenths / 10 * inject_Z (1024 ^ Z.of_nat i) - inject_Z (1536 * 1024))
       <= inject_Z (1024 ^ Z.of_nat i) / 20 + inject_Z (1536 * 1024) / 2 ^ 53.
Proof.
  apply (proj1 human_readable_tolerance 1536%Z). split; [lia | reflexivity].
Defined.

(** C6 as stated fails: a size that no double holds cannot be divided. *)
Lemma human_readable_overflow :
  (0 <= 2 ^ 1024)%Z /\ human_readable (2 ^ 1024) = Raise OverflowError.
Proof. split; [vm_compute; discriminate | reflexivity]. Qed.

End Kilobytes.

(** ** The exceptions of the report *)

Section Exceptions.

Lemma bind_raises_only {A B : Type} allowed (r : result A) (k : A -> result B) :
  raises_only allowed r -> (forall a, raises_only allowed (k a)) ->
  raises_only allowed (bind r k).
Proof.
  unfold raises_only. destruct r as [a|e]; simpl; intros Hr Hk e' E.
  - eapply Hk; eauto.
  - apply Hr. now inversion E.
Qed.

Lemma ok_raises_only {A : Type} allowed (a : A) : raises_only allowed (Ok a).
Proof. intros e E. discriminate. Qed.

Lemma of_int_errors n : raises_only arithmetic_error (of_int n).
Proof.
  intros e. unfold of_int. destruct (rounded _ _); intros E; inversion E. now left.
Qed.

Lemma to_float_errors a : raises_only arithmetic_error (to_float a).
Proof. destruct a; simpl; [apply of_int_errors | apply ok_raises_only]. Qed.

(** Dividing by one of the two constants of the program, 100 and 1024. *)
Lemma truediv_const_errors a m :
  m = 100 \/ m = 1024 -> raises_only arithmetic_error (truediv a (Int m)).
Proof.
  intros Hm. destruct a as [n|x].
  - intros e. simpl.
    replace (m =? 0) with false by now destruct Hm; subst.
    destruct (rounded _ _); intros E; inversion E. now left.
  - rewrite truediv_float_const by assumption. apply ok_raises_only.
Qed.

Lemma mul_errors a b : raises_only arithmetic_error (mul a b).
Proof.
  destruct a as [n|x], b as [m|y]; simpl; try apply ok_raises_only;
    repeat (apply bind_raises_only;
            [first [apply of_int_errors | apply ok_raises_only]|intros]);
    apply ok_raises_only.
Qed.

Lemma round_errors a : raises_only arithmetic_error (round a).
Proof.
  destruct a as [n|[]]; simpl; intros e E; inversion E; [now right | now left].
Qed.

Lemma format_f_errors prec a : raises_only arithmetic_error (format_f prec a).
Proof.
  apply bind_raises_only; [apply to_float_errors | intros; apply ok_raises_only].
Qed.

Lemma filled_length_errors p w : raises_only arithmetic_error (filled_length_of p w).
Proof.
  apply bind_raises_only; [apply truediv_const_errors; auto|].
  intros fraction. apply bind_raises_only; [apply mul_errors|].
  intros filled. apply round_errors.
Qed.

(** A valid percentage is never rejected by [percent_to_graph]. *)
Lemma percent_to_graph_errors p w :
  valid_percent p -> raises_only arithmetic_error (percent_to_graph p w).
Proof.
  intros Hp. rewrite percent_to_graph_bar by assumption.
  apply bind_raises_only; [apply filled_length_errors | intros; apply ok_raises_only].
Qed.

Lemma human_readable_from_errors units_left : forall size_bytes,
  raises_only arithmetic_error (human_readable_from size_bytes units_left).
Proof.
  induction units_left as [|unit rest IH]; simpl; intros size_bytes.
  - apply bind_raises_only; [apply format_f_errors | intros; apply ok_raises_only].
  - destruct (lt size_bytes (Int 1024)).
    + apply bind_raises_only; [apply format_f_errors | intros; apply ok_raises_only].
    + apply bind_raises_only; [apply truediv_const_errors; auto | auto].
Qed.

Lemma size_string_errors a size : raises_only arithmetic_error (size_string a size).
Proof.
  unfold size_string. destruct (Args.human_readable a); [|apply ok_raises_only].
  apply human_readable_from_errors.
Qed.

Lemma report_row_errors a total_size entry percent :
  row_percent (snd entry) total_size = Ok percent -> valid_percent percent ->
  raises_only arithmetic_error (report_row a total_size entry).
Proof.
  destruct entry as [directory size]. simpl. intros Hp Hv.
  unfold report_row. rewrite Hp. cbn [bind].
  apply bind_raises_only; [now apply percent_to_graph_errors|].
  intros bar. apply bind_raises_only; [apply size_string_errors|].
  intros size_str. apply bind_raises_only; [apply format_f_errors|].
  intros; apply ok_raises_only.
Qed.

Lemma snd_io_bind {A B : Type} (m : io A) (k : A -> io B) :
  snd (io_bind m k)
  = match snd m with
    | Returns a => snd (k a)
    | Exits code => Exits code
    | Uncaught e => Uncaught e
    end.
Proof.
  destruct m as [tr [a|code|e]]; simpl; auto. now destruct (k a).
Qed.

Lemma print_rows_errors a total_size rows :
  (forall entry, In entry rows ->
     exists percent, row_percent (snd entry) total_size = Ok percent
                     /\ valid_percent percent) ->
  forall e, snd (print_rows a total_size rows) = Uncaught e -> arithmetic_error e.
Proof.
  induction rows as [|entry rest IH]; simpl; intros Hrows e; [discriminate|].
  rewrite snd_io_bind.
  destruct (Hrows entry (or_introl eq_refl)) as (percent & Hp & Hv).
  pose proof (report_row_errors a total_size entry percent Hp Hv) as Hrow.
  destruct (report_row a total_size entry) as [line|e0]; simpl.
  - destruct (print_rows a total_size rest) as [tr en] eqn:Hrest. simpl in *.
    apply IH. intros; apply Hrows; auto.
  - intros E. inversion E; subst. now apply Hrow.
Qed.

Lemma report_errors a dir_dict :
  (forall entry, In entry (snd (pop dir_dict (Args.target a) 0)) ->
     exists percent,
       row_percent (snd entry) (fst (pop dir_dict (Args.target a) 0)) = Ok percent
       /\ valid_percent percent) ->
  forall e, snd (report a dir_dict) = Uncaught e -> arithmetic_error e.
Proof.
  unfold report. destruct (pop dir_dict (Args.target a) 0) as [total_size d'].
  simpl. intros Hrows e. rewrite snd_io_bind.
  pose proof (print_rows_errors a total_size (sorted_dirs d')) as Hpr.
  destruct (snd (print_rows a total_size (sorted_dirs d'))) as [[]|code|e0].
  - rewrite snd_io_bind.
    pose proof (size_string_errors a total_size) as Hs.
    destruct (size_string a total_size) as [s|e0]; simpl; [discriminate|].
    intros E; inversion E; subst. now apply Hs.
  - discriminate.
  - intros E; inversion E; subst. apply Hpr; auto.
    intros entry Hin. apply Hrows.
    eapply Permutation_in; [|exact Hin].
    apply Permutation_sym. apply (sorted_reverse_spec snd d').
Qed.

Lemma arithmetic_error_neq e :
  arithmetic_error e -> e <> ZeroDivisionError /\ e <> invalid_percent.
Proof. intros [-> | ->]; split; discriminate. Qed.

End Exceptions.

(** ** Percentages *)

Section Percentages.


Lemma valid_percent_zero : valid_percent (Int 0).
Proof. split; reflexivity. Qed.








End Percentages.

(** C8: without an entry for the target the total is 0, and with a total of
    0 every row has the percentage 0 and nothing divides by zero. *)
Theorem zero_total_no_division :
  (forall dir_dict target_path,
     get dir_dict target_path = None -> fst (pop dir_dict target_path 0) = 0)
  /\ (forall size, row_percent size 0 = Ok (Int 0))
  /\ (forall a dir_dict,
        fst (pop dir_dict (Args.target a) 0) = 0 ->
        snd (report a dir_dict) <> Uncaught ZeroDivisionError).
Proof.
  repeat split.
  - intros d k H. unfold pop. now rewrite H.
  - intros a d H E.
    apply (report_errors a d) in E.
    + now apply arithmetic_error_neq in E.
    + intros entry _. rewrite H. exists (Int 0).
      split; [reflexivity | apply valid_percent_zero].
Qed.

Lemma zero_total_no_division_witness :
  fst (pop [("/b/x", 50)] "/a" 0) = 0
  /\ snd (report {| Args.target := "/a"; Args.human_readable := false;
                    Args.length := 20 |} [("/b/x", 50)])
     <> Uncaught ZeroDivisionError.
Proof.
  split.
  - apply (proj1 zero_total_no_division). reflexivity.
  - apply (proj2 (proj2 zero_total_no_division)). reflexivity.
Defined.




(** ** The empty report *)

(** C1 at the input where it fails: the scan of a directory without
    sub-directories holds the line of the directory alone. The mapping is
    tested for emptiness before the entry of the target is removed, so the
    program prints the total and ends normally, without the diagnostic. *)
Theorem only_target_entry_prints_total :
  main {| Args.target := "/a"; Args.human_readable := false; Args.length := 20 |}
       {| isdir := fun _ => true;
          run_du := fun _ => DuOutput (du_line "100" "/a" ++ String newline "") |}
  = ([Stdout "Total: 100K   /a"], Returns tt).
Proof. reflexivity. Qed.

(** The diagnostic is printed for a scan without any usable line. *)
Lemma empty_scan_diagnostic a w stdout :
  isdir w (Args.target a) = true ->
  run_du w (Args.target a) = DuOutput stdout ->
  create_dir_dict (stripped_lines stdout) = Ok [] ->
  main a w = ([Stderr "No subdirectories found."], Exits 0).
Proof.
  intros Hdir Hrun Hd. unfold main. rewrite Hdir, Hrun. simpl.
  rewrite Hd. reflexivity.
Qed.

(** ** Human-readable sizes *)

(** C10: the size 0 is rendered in bytes. *)
Theorem human_readable_zero : human_readable 0 = Ok "0.0 B".
Proof. reflexivity. Qed.

(** * Further properties of the program *)

(** ** More on the parser *)

Section Mapping.

Lemma keys_setitem_old d k v : In k (keys d) -> keys (setitem d k v) = keys d.
Proof.
  induction d as [|[k0 v0] d IH]; simpl; [tauto|].
  destruct (String.eqb_spec k0 k) as [->|Hne]; simpl; auto.
  intros [H|H]; [congruence|]. f_equal. now apply IH.
Qed.

Lemma setitem_keys_nodup d k v : NoDup (keys d) -> NoDup (keys (setitem d k v)).
Proof.
  intros Hnd. destruct (in_dec string_dec k (keys d)) as [Hin|Hnin].
  - now rewrite keys_setitem_old.
  - rewrite setitem_new by assumption. unfold keys. rewrite map_app. simpl.
    apply NoDup_app; auto.
    + repeat constructor. simpl. tauto.
    + intros x Hx [<-|[]]. contradiction.
Qed.

Lemma create_dir_dict_from_nodup du_output : forall d0 d,
  NoDup (keys d0) -> create_dir_dict_from d0 du_output = Ok d -> NoDup (keys d).
Proof.
  induction du_output as [|line rest IH]; simpl; intros d0 d Hnd H.
  - now inversion H; subst.
  - destruct (PyStr.split tab line) as [|size [|directory [|f3 fs]]]; eauto.
    destruct (PyInt.int size) as [n|e]; simpl in H; [|discriminate].
    eapply IH; [|exact H]. now apply setitem_keys_nodup.
Qed.

Lemma get_setitem_same d k v : get (setitem d k v) k = Some v.
Proof.
  induction d as [|[k0 v0] d IH]; simpl.
  - now rewrite String.eqb_refl.
  - destruct (String.eqb_spec k0 k) as [->|Hne]; simpl.
    + now rewrite String.eqb_refl.
    + destruct (String.eqb_spec k0 k); [contradiction | exact IH].
Qed.

Lemma get_setitem_other d k v k' : k' <> k -> get (setitem d k v) k' = get d k'.
Proof.
  intros Hne. induction d as [|[k0 v0] d IH]; simpl.
  - destruct (String.eqb_spec k k'); [congruence | reflexivity].
  - destruct (String.eqb_spec k0 k) as [->|Hne0]; simpl.
    + destruct (String.eqb_spec k k'); [congruence|].
      destruct (String.eqb_spec k k'); [congruence | reflexivity].
    + destruct (String.eqb_spec k0 k'); auto.
Qed.

Lemma create_dir_dict_from_app l1 : forall l2 d0,
  create_dir_dict_from d0 (l1 ++ l2)
  = let* d1 := create_dir_dict_from d0 l1 in create_dir_dict_from d1 l2.
Proof.
  induction l1 as [|line rest IH]; simpl; intros l2 d0; auto.
  destruct (PyStr.split tab line) as [|size [|directory [|f3 fs]]]; auto.
  destruct (PyInt.int size) as [n|e]; simpl; auto.
Qed.

(** Lines that do not name [k] leave its entry alone. *)
Lemma create_dir_dict_from_get_other du_output k : forall d0 d,
  (forall line size, In line du_output -> fields line <> [size; k]) ->
  create_dir_dict_from d0 du_output = Ok d -> get d k = get d0 k.
Proof.
  induction du_output as [|line rest IH]; simpl; intros d0 d Hk H.
  - now inversion H.
  - assert (Hrest : forall l s, In l rest -> fields l <> [s; k]) by (intros; apply Hk; auto).
    pose proof (fun s => Hk line s (or_introl eq_refl)) as Hline. unfold fields in Hline.
    destruct (PyStr.split tab line) as [|size [|directory [|f3 fs]]]; eauto.
    destruct (PyInt.int size) as [n|e]; simpl in H; [|discriminate].
    rewrite (IH _ _ Hrest H). apply get_setitem_other.
    intros <-. now apply (Hline size).
Qed.

End Mapping.

(** X1: the directories of the mapping are pairwise distinct. *)
Theorem create_dir_dict_keys_unique du_output dir_dict :
  create_dir_dict du_output = Ok dir_dict -> NoDup (keys dir_dict).
Proof. apply create_dir_dict_from_nodup. constructor. Qed.

Lemma create_dir_dict_keys_unique_witness :
  NoDup (keys [("/a", 7); ("/a/x", 50)]).
Proof.
  apply (create_dir_dict_keys_unique
           [du_line "100" "/a"; du_line "50" "/a/x"; du_line "7" "/a"]).
  reflexivity.
Defined.

(** X2: when a directory occurs on several lines, the size of the last one
    is the one the mapping holds. *)
Theorem last_line_wins before line after size directory size_kb dir_dict :
  create_dir_dict (before ++ line :: after) = Ok dir_dict ->
  fields line = [size; directory] ->
  PyInt.int size = Ok size_kb ->
  (forall later size', In later after -> fields later <> [size'; directory]) ->
  get dir_dict directory = Some size_kb.
Proof.
  intros H Hf Hi Hafter. unfold create_dir_dict in H.
  rewrite create_dir_dict_from_app in H.
  destruct (create_dir_dict_from [] before) as [d1|e]; simpl in H; [|discriminate].
  unfold fields in Hf. rewrite Hf, Hi in H. simpl in H.
  rewrite (create_dir_dict_from_get_other after directory _ _ Hafter H).
  apply get_setitem_same.
Qed.

Lemma last_line_wins_witness :
  get [("/a", 7); ("/a/x", 50)] "/a" = Some 7.
Proof.
  apply (last_line_wins [du_line "100" "/a"; du_line "50" "/a/x"] (du_line "7" "/a")
           [] "7" "/a" 7).
  - reflexivity.
  - reflexivity.
  - reflexivity.
  - intros later size' [].
Defined.

(** ** The ways [main] ends *)

Section Endings.

Lemma print_rows_trace a total_size rows :
  forallb is_stdout (fst (print_rows a total_size rows)) = true
  /\ forall code, snd (print_rows a total_size rows) <> Exits code.
Proof.
  induction rows as [|entry rest IH]; simpl; [split; [reflexivity | discriminate]|].
  destruct (report_row a total_size entry) as [line|e]; simpl.
  - destruct (print_rows a total_size rest) as [tr en]; simpl in *. exact IH.
  - split; [reflexivity | discriminate].
Qed.

Lemma report_trace a dir_dict :
  forallb is_stdout (fst (report a dir_dict)) = true
  /\ forall code, snd (report a dir_dict) <> Exits code.
Proof.
  unfold report. destruct (pop dir_dict (Args.target a) 0) as [total_size d'].
  pose proof (print_rows_trace a total_size (sorted_dirs d')) as [Htr Hex].
  destruct (print_rows a total_size (sorted_dirs d')) as [tr [[]|code|e]];
    simpl in *.
  - destruct (size_string a total_size) as [s|e]; simpl.
    + rewrite forallb_app, Htr. split; [reflexivity | discriminate].
    + rewrite app_nil_r. split; [exact Htr | discriminate].
  - now elim (Hex code).
  - split; [exact Htr | discriminate].
Qed.

End Endings.

(** X3: the report goes to the standard output only, and nothing in it ends
    the program by [sys.exit]. *)
Theorem report_writes_stdout a dir_dict :
  forallb is_stdout (fst (report a dir_dict)) = true
  /\ forall code, snd (report a dir_dict) <> Exits code.
Proof. apply report_trace. Qed.



(** ** The target and the rows *)

Section Target.

Lemma get_in d k v : get d k = Some v -> In (k, v) d.
Proof.
  induction d as [|[k0 v0] d IH]; simpl; [discriminate|].
  destruct (String.eqb_spec k0 k) as [->|Hne]; intros H; [inversion H; auto | auto].
Qed.

Lemma in_get d k v : NoDup (keys d) -> In (k, v) d -> get d k = Some v.
Proof.
  induction d as [|[k0 v0] d IH]; simpl; [tauto|].
  intros Hnd [H|H]; inversion Hnd; subst.
  - inversion H; subst. now rewrite String.eqb_refl.
  - destruct (String.eqb_spec k0 k) as [->|Hne]; auto.
    exfalso. apply H2. change k with (fst (k, v)). now apply in_map.
Qed.

Lemma remove_in d k k' v' :
  NoDup (keys d) -> (In (k', v') (remove d k) <-> In (k', v') d /\ k' <> k).
Proof.
  induction d as [|[k0 v0] d IH]; simpl; [tauto|].
  intros Hnd. inversion Hnd as [|? ? Hnin Hnd']; subst.
  destruct (String.eqb_spec k0 k) as [->|Hne].
  - split.
    + intros H. split; auto. intros ->. apply Hnin.
      change k with (fst (k, v')). now apply in_map.
    + intros [[H|H] Hk]; [inversion H; subst; contradiction | exact H].
  - simpl. rewrite (IH Hnd'). split.
    + intros [H|[H Hk]]; [inversion H; subst; auto | auto].
    + intros [[H|H] Hk]; auto.
Qed.

End Target.

(** X5: the entry of the target gives the total and is left out of the
    rows: the rows are the other entries of the mapping. *)
Theorem target_is_total_not_row du_output dir_dict target_path :
  create_dir_dict du_output = Ok dir_dict ->
  let total_size := fst (pop dir_dict target_path 0) in
  let rows := sorted_dirs (snd (pop dir_dict target_path 0)) in
  (forall size_kb, In (target_path, size_kb) dir_dict -> total_size = size_kb)
  /\ (forall directory size_kb,
        In (directory, size_kb) rows
        <-> In (directory, size_kb) dir_dict /\ directory <> target_path).
Proof.
  intros Hd.
  assert (Hnd : NoDup (keys dir_dict))
    by (revert Hd; apply create_dir_dict_from_nodup; constructor).
  simpl. unfold pop. split.
  - intros v Hin. now rewrite (in_get _ _ _ Hnd Hin).
  - intros k v.
    assert (Hperm : forall d, In (k, v) (sorted_dirs d) <-> In (k, v) d).
    { intros d. destruct (sorted_reverse_spec snd d) as (_ & Hp & _).
      split; apply Permutation_in; [now apply Permutation_sym | exact Hp]. }
    rewrite Hperm.
    destruct (get dir_dict target_path) as [t|] eqn:Hg; simpl.
    + now apply remove_in.
    + split; [|tauto]. intros Hin. split; auto. intros ->.
      rewrite (in_get _ _ _ Hnd Hin) in Hg. discriminate.
Qed.

Lemma target_is_total_not_row_witness :
  fst (pop [("/a", 100); ("/a/x", 50)] "/a" 0) = 100
  /\ (In ("/a/x", 50) (sorted_dirs (snd (pop [("/a", 100); ("/a/x", 50)] "/a" 0)))
      <-> In ("/a/x", 50) [("/a", 100); ("/a/x", 50)] /\ "/a/x" <> "/a").
Proof.
  destruct (target_is_total_not_row
              [du_line "100" "/a"; du_line "50" "/a/x"]
              [("/a", 100); ("/a/x", 50)] "/a" eq_refl) as [H1 H2].
  split; [apply H1; now left | apply H2].
Defined.

(** ** The lines of the scan *)

Section Lines.

Lemma chars_of_chars cs : PyStr.chars (PyStr.of_chars cs) = cs.
Proof. apply list_ascii_of_string_of_list_ascii. Qed.


Lemma drop_while_suffix p cs : exists pre, cs = (pre ++ PyStr.drop_while p cs)%list.
Proof.
  induction cs as [|c cs [pre IH]]; simpl.
  - now exists [].
  - destruct (p c); [exists (c :: pre); simpl; now f_equal | now exists []].
Qed.

Lemma drop_while_idem p cs :
  PyStr.drop_while p (PyStr.drop_while p cs) = PyStr.drop_while p cs.
Proof.
  induction cs as [|c cs IH]; simpl; auto.
  destruct (p c) eqn:E; auto. simpl. now rewrite E.
Qed.

Lemma drop_while_length p cs : (List.length (PyStr.drop_while p cs) <= List.length cs)%nat.
Proof.
  induction cs as [|c cs IH]; simpl; auto. destruct (p c); simpl; lia.
Qed.

Lemma drop_while_fixed_head p c cs :
  PyStr.drop_while p (c :: cs) = c :: cs -> p c = false.
Proof.
  simpl. destruct (p c); auto. intros E.
  pose proof (drop_while_length p cs) as H. rewrite E in H. simpl in H. lia.
Qed.

Lemma drop_while_head p c cs : p c = false -> PyStr.drop_while p (c :: cs) = c :: cs.
Proof. simpl. now intros ->. Qed.

(** What [strip] returns has no white space at either end. *)
Lemma strip_chars_trimmed p cs :
  let r := PyStr.strip_chars p cs in
  PyStr.drop_while p r = r /\ PyStr.drop_while p (rev r) = rev r.
Proof.
  unfold PyStr.strip_chars. set (a := PyStr.drop_while p cs).
  set (b := PyStr.drop_while p (rev a)). simpl. split.
  - destruct (drop_while_suffix p (rev a)) as [pre Hpre]. fold b in Hpre.
    assert (Ha : a = (rev b ++ rev pre)%list).
    { rewrite <- rev_app_distr, <- Hpre. symmetry. apply rev_involutive. }
    destruct (rev b) as [|c t] eqn:Hb; auto.
    apply drop_while_head. apply (drop_while_fixed_head p c (t ++ rev pre)).
    change (c :: t ++ rev pre)%list with ((c :: t) ++ rev pre)%list.
    rewrite <- Ha. apply drop_while_idem.
  - rewrite rev_involutive. apply drop_while_idem.
Qed.

Lemma strip_chars_fixed p r :
  PyStr.drop_while p r = r -> PyStr.drop_while p (rev r) = rev r ->
  PyStr.strip_chars p r = r.
Proof.
  intros H1 H2. unfold PyStr.strip_chars. rewrite H1, H2. apply rev_involutive.
Qed.

Lemma strip_idem s : PyStr.strip (PyStr.strip s) = PyStr.strip s.
Proof.
  unfold PyStr.strip. rewrite chars_of_chars. f_equal.
  destruct (strip_chars_trimmed PyStr.isspace (PyStr.chars s)) as [H1 H2].
  now apply strip_chars_fixed.
Qed.

Lemma split_chars_nonempty sep cs : PyStr.split_chars sep cs <> [].
Proof.
  destruct cs as [|c cs]; simpl; [discriminate|].
  destruct (Ascii.eqb c sep); [discriminate|].
  destruct (PyStr.split_chars sep cs); discriminate.
Qed.

(** No field of a split holds the separator. *)
Lemma split_chars_fields sep cs :
  forall f, In f (PyStr.split_chars sep cs) -> ~ In sep f.
Proof.
  induction cs as [|c cs IH]; simpl.
  - intros f [<-|[]]. tauto.
  - destruct (Ascii.eqb_spec c sep) as [->|Hne].
    + intros f [<-|H]; [tauto | now apply IH].
    + destruct (PyStr.split_chars sep cs) as [|f0 fs] eqn:E.
      * intros f [<-|[]] [H|[]]. congruence.
      * intros f [<-|H].
        -- intros [H|H]; [congruence|]. apply (IH f0); [now left | exact H].
        -- apply IH. now right.
Qed.

Lemma nonempty_true s : nonempty s = true -> s <> "".
Proof. destruct s; [discriminate | discriminate]. Qed.

(** What the scan keeps of the output of [du]. *)
Lemma stripped_lines_spec stdout line :
  In line (stripped_lines stdout) ->
  line <> "" /\ PyStr.strip line = line /\ ~ In newline (PyStr.chars line).
Proof.
  unfold stripped_lines. intros H.
  apply in_map_iff in H as (raw & <- & Hraw).
  apply filter_In in Hraw as [Hraw Hne].
  split; [now apply nonempty_true|]. split; [apply strip_idem|].
  unfold PyStr.split in Hraw. apply in_map_iff in Hraw as (f & <- & Hf).
  unfold PyStr.strip. rewrite !chars_of_chars.
  intros Hin. apply strip_chars_incl in Hin.
  now apply (split_chars_fields newline _ f Hf).
Qed.

End Lines.

(** X6: a line that [call_du_sub] returns is not empty, has no white space
    at either end ([strip] leaves it unchanged) and holds no newline. *)
Theorem stripped_lines_clean stdout line :
  In line (stripped_lines stdout) ->
  line <> "" /\ PyStr.strip line = line /\ ~ In newline (PyStr.chars line).
Proof. apply stripped_lines_spec. Qed.

Lemma stripped_lines_clean_witness :
  stripped_lines ("  " ++ du_line "100" "/a" ++ String newline (String newline " "))
  = [du_line "100" "/a"]
  /\ du_line "100" "/a" <> ""
  /\ PyStr.strip (du_line "100" "/a") = du_line "100" "/a"
  /\ ~ In newline (PyStr.chars (du_line "100" "/a")).
Proof.
  split; [reflexivity|].
  apply (stripped_lines_clean
           ("  " ++ du_line "100" "/a" ++ String newline (String newline " "))).
  left. reflexivity.
Defined.

(** ** More on the bar *)

Section BarValues.

Local Open Scope Q_scope.

Lemma finite_num_value x r : finite_val x = Some r -> num_value (Float x) == r.
Proof. destruct x; simpl; intros H; inversion H; subst; reflexivity. Qed.

Lemma round_finite x r : finite_val x = Some r -> round (Float x) = Ok (round_even r).
Proof. destruct x; simpl; intros H; inversion H; subst; reflexivity. Qed.

(** The fraction [percent / 100], with its value. *)
Lemma truediv_percent_value p :
  valid_percent p ->
  exists x r, truediv p (Int 100) = Ok (Float x)
              /\ finite_val x = Some r
              /\ r == round64 (num_value p / 100) /\ 0 <= r <= 1.
Proof.
  intros [H1 H2].
  destruct (valid_percent_cases p H1 H2) as [(n & -> & Hn)|(x & r & -> & Hf & Hr)].
  - assert (Hq : 0 <= inject_Z n / inject_Z 100 <= inject_Z 1).
    { change (inject_Z 100) with 100. change (inject_Z 1) with 1.
      assert (0 <= inject_Z n <= 100).
      { change 0 with (inject_Z 0). change 100 with (inject_Z 100).
        rewrite <- !Zle_Qle. lia. }
      split; [apply Qle_shift_div_l | apply Qle_shift_div_r]; lra. }
    destruct (rounded_between (xorb (n <? 0)%Z (100 <? 0)%Z) _ 1 Hq ltac:(lia))
      as (r & Hf & Hv & Hr).
    exists (rounded (xorb (n <? 0)%Z (100 <? 0)%Z) (inject_Z n / inject_Z 100)), r.
    repeat split; try tauto.
    simpl truediv. destruct (rounded _ _); try discriminate; reflexivity.
  - assert (Hq : 0 <= r / 100 <= inject_Z 1).
    { change (inject_Z 1) with 1.
      split; [apply Qle_shift_div_l | apply Qle_shift_div_r]; lra. }
    destruct (rounded_between (xorb (sign_bit x) (sign_bit (Ffin 100))) _ 1 Hq ltac:(lia))
      as (r' & Hf' & Hv' & Hr').
    exists (fdiv x (Ffin 100)), r'.
    rewrite (truediv_float_const x 100) by auto.
    change (inject_Z 100) with 100.
    rewrite (fdiv_finite x (Ffin 100) r 100 Hf eq_refl).
    repeat split; try tauto.
    rewrite Hv'. apply round64_comp. now rewrite (finite_num_value x r Hf).
Qed.

(** The number of filled characters in closed form: two roundings to a
    double and one to an integer. *)
Lemma filled_length_value p w :
  valid_percent p -> (0 <= w <= 2 ^ 53)%Z ->
  filled_length_of p w
  = Ok (round_even (round64 (round64 (num_value p / 100) * inject_Z w))).
Proof.
  intros Hp Hw.
  destruct (truediv_percent_value p Hp) as (x & a & Hdiv & Hx & Hav & Ha).
  destruct (of_int_exact w Hw) as (y & b & Hy & Hyf & Hb).
  unfold filled_length_of. rewrite Hdiv. cbn [bind].
  assert (Hmul : mul (Float x) (Int w) = Ok (Float (fmul x y))).
  { unfold mul, to_float. cbn [bind]. rewrite Hy. reflexivity. }
  rewrite Hmul. cbn [bind].
  rewrite (fmul_finite x y a b Hx Hyf).
  assert (Hw0 : 0 <= inject_Z w) by (apply inject_Z_nonneg; lia).
  assert (Hq : 0 <= a * b <= inject_Z w).
  { rewrite Hb. split; [apply Qmult_le_0_compat; lra|].
    rewrite <- (Qmult_1_l (inject_Z w)) at 2.
    apply Qmult_le_compat_r; lra. }
  destruct (rounded_between (xorb (sign_bit x) (sign_bit y)) _ w Hq ltac:(lia))
    as (r & Hf & Hr & _).
  rewrite (round_finite _ r Hf). f_equal.
  apply round_even_comp. rewrite Hr. apply round64_comp. now rewrite Hav, Hb.
Qed.

Lemma le_num_value p p' :
  valid_percent p -> valid_percent p' -> le p p' = true -> num_value p <= num_value p'.
Proof.
  intros [H1 H2] [H1' H2'].
  destruct (valid_percent_cases p H1 H2) as [(n & -> & _)|(x & r & -> & Hf & _)],
           (valid_percent_cases p' H1' H2') as [(n' & -> & _)|(x' & r' & -> & Hf' & _)];
    unfold le, num_value; rewrite ?(finite_value _ _ Hf), ?(finite_value _ _ Hf');
    simpl; intros H; now apply Qle_bool_iff in H.
Qed.

Lemma num_value_nonneg p : valid_percent p -> 0 <= num_value p.
Proof.
  intros [H1 H2].
  destruct (valid_percent_cases p H1 H2) as [(n & -> & Hn)|(x & r & -> & Hf & Hr)].
  - apply inject_Z_nonneg. lia.
  - rewrite (finite_num_value x r Hf). tauto.
Qed.


End BarValues.

(** X7: [percent_to_graph] raises its ValueError exactly for a percentage
    that fails the test [0 <= percent <= 100], whatever the width. *)
Theorem percent_to_graph_rejects p w :
  percent_to_graph p w = Raise invalid_percent
  <-> le (Int 0) p && le p (Int 100) = false.
Proof.
  split.
  - intros H. destruct (le (Int 0) p && le p (Int 100)) eqn:E; auto.
    apply andb_true_iff in E.
    apply (percent_to_graph_errors p w E) in H.
    now apply arithmetic_error_neq in H.
  - intros H. unfold percent_to_graph. now rewrite H.
Qed.

Lemma percent_to_graph_rejects_witness :
  percent_to_graph (Float (Finf false)) 20 = Raise invalid_percent
  /\ percent_to_graph (Int (-1)) 0 = Raise invalid_percent.
Proof.
  split; apply (proj2 (percent_to_graph_rejects _ _)); reflexivity.
Defined.

(** X8: a larger percentage never gives a shorter bar. *)
Theorem bar_grows_with_percent p p' w :
  valid_percent p -> valid_percent p' -> le p p' = true -> 0 <= w <= 2 ^ 53 ->
  exists n n',
    filled_length_of p w = Ok n /\ filled_length_of p' w = Ok n' /\ n <= n'.
Proof.
  intros Hp Hp' Hle Hw.
  exists (round_even (round64 (round64 (num_value p / 100) * inject_Z w))),
         (round_even (round64 (round64 (num_value p' / 100) * inject_Z w))).
  rewrite !filled_length_value by assumption. repeat split.
  pose proof (num_value_nonneg p Hp) as H0.
  pose proof (le_num_value p p' Hp Hp' Hle) as H1.
  assert (Hw0 : (0 <= inject_Z w)%Q) by (apply inject_Z_nonneg; lia).
  assert (Ha : (0 <= num_value p / 100)%Q) by (apply Qle_shift_div_l; lra).
  assert (Hb : (num_value p / 100 <= num_value p' / 100)%Q).
  { unfold Qdiv. apply Qmult_le_compat_r; [exact H1 | discriminate]. }
  pose proof (round64_nonneg _ Ha) as Hr0.
  pose proof (round64_le _ _ Ha Hb) as Hr1.
  apply round_even_le. apply round64_le.
  - now apply Qmult_le_0_compat.
  - now apply Qmult_le_compat_r.
Qed.

Lemma bar_grows_with_percent_witness :
  filled_length_of (Int 25) 20 = Ok 5 /\ filled_length_of (Int 50) 20 = Ok 10
  /\ 5 <= 10.
Proof.
  destruct (bar_grows_with_percent (Int 25) (Int 50) 20) as (n & n' & H & H' & Hle).
  - split; reflexivity.
  - split; reflexivity.
  - reflexivity.
  - lia.
  - assert (n = 5) by (vm_compute in H; now inversion H).
    assert (n' = 10) by (vm_compute in H'; now inversion H'). subst.
    auto.
Defined.



(** ** More on human-readable sizes *)

Section Units.

Local Open Scope Q_scope.

(** The loop of [human_readable] stops at the first unit for which the
    value is below 1024, or at the last unit. *)
Lemma human_readable_from_float_stops units_left : forall q xq,
  1 # 2 <= q -> xq == round64 q -> round64 q < 2 ^ 1024 -> 1 <= xq ->
  exists j v,
    (j <= List.length units_left)%nat
    /\ v == round64 q / inject_Z (1024 ^ Z.of_nat j)
    /\ 1 <= v
    /\ (v < 1024 \/ j = List.length units_left)
    /\ (forall i, (i < j)%nat -> 1024 <= round64 q / inject_Z (1024 ^ Z.of_nat i))
    /\ human_readable_from (Float (Ffin xq)) units_left
       = Ok (decimal1 (round_even (v * 10)) ++ " "
             ++ nth j (units_left ++ ["P"]) "")%string.
Proof.
  induction units_left as [|unit rest IH]; intros q xq Hq Hx Hlim H1.
  - assert (H0 : 0 <= xq) by lra.
    exists 0%nat, xq. repeat split; auto.
    + rewrite Hx. change (inject_Z (1024 ^ Z.of_nat 0)) with 1. field.
    + intros i Hi. lia.
    + cbn [human_readable_from]. rewrite format_f_float. cbn [bind].
      now rewrite format_float_nonneg.
  - assert (H0 : 0 <= xq) by lra.
    cbn [human_readable_from]. rewrite lt_float_1024.
    destruct (Qle_bool 1024 xq) eqn:Hge; cbn [negb].
    + apply Qle_bool_iff in Hge.
      assert (Hq512 : 512 <= q).
      { destruct (Qlt_le_dec q 512) as [Hlt|]; auto. exfalso.
        assert (H : round64 q <= round64 512) by (apply round64_le; lra).
        pose proof (round64_int 512 ltac:(lia)) as E512.
        change (inject_Z 512) with 512 in E512. rewrite E512 in H. lra. }
      rewrite (truediv_float_const (Ffin xq) 1024) by auto.
      change (inject_Z 1024) with 1024.
      rewrite (fdiv_finite (Ffin xq) (Ffin 1024) xq 1024 eq_refl eq_refl).
      assert (Hr' : round64 (q / 1024) == round64 q / 1024).
      { change (round64 q / 1024) with (round64 q * 2 ^ (-10)).
        change (q / 1024) with (q * 2 ^ (-10)).
        pose proof (ilog2_half q ltac:(lra)).
        apply round64_scale; [lra | lia | lia]. }
      assert (Hr : round64 (xq / 1024) == round64 (q / 1024)).
      { rewrite (round64_comp (xq / 1024) (round64 q / 1024)) by now rewrite Hx.
        rewrite round64_div_1024 by lra. now symmetry. }
      assert (Hbig : 1 <= round64 q / 1024).
      { rewrite <- Hx. apply Qle_shift_div_l; lra. }
      assert (Hsmall : round64 q / 1024 < 2 ^ 1024).
      { apply Qle_lt_trans with (round64 q); [|exact Hlim].
        apply Qle_shift_div_r; lra. }
      destruct (rounded_finite
                  (xorb (sign_bit (Ffin xq)) (sign_bit (Ffin 1024))) (xq / 1024))
        as (r & Hf & Hrr).
      { rewrite Hr, Hr', Qabs_pos; lra. }
      rewrite (finite_positive _ r Hf) by (rewrite Hrr, Hr, Hr'; lra).
      destruct (IH (q / 1024) r) as (j & v & Hj & Hv & Hv1 & Hstop & Hmin & Hout).
      * apply Qle_shift_div_l; lra.
      * now rewrite Hrr.
      * rewrite Hr'. exact Hsmall.
      * rewrite Hrr, Hr, Hr'. exact Hbig.
      * exists (S j), v. repeat split; auto.
        -- simpl. lia.
        -- rewrite Hv, Hr', pow1024_succ. field.
           pose proof (pow1024_pos j). lra.
        -- destruct Hstop as [Hs | ->]; [now left | now right].
        -- intros [|i] Hi.
           ++ change (inject_Z (1024 ^ Z.of_nat 0)) with 1.
              setoid_replace (round64 q / 1) with (round64 q) by field.
              now rewrite <- Hx.
           ++ specialize (Hmin i ltac:(lia)). rewrite Hr' in Hmin.
              rewrite pow1024_succ.
              setoid_replace (round64 q / (1024 * inject_Z (1024 ^ Z.of_nat i)))
                with (round64 q / 1024 / inject_Z (1024 ^ Z.of_nat i)); [exact Hmin|].
              field. pose proof (pow1024_pos i). lra.
    + assert (Hlt : xq < 1024).
      { apply Qnot_le_lt. intros Hc. apply Qle_bool_iff in Hc. congruence. }
      exists 0%nat, xq. repeat split; auto.
      * simpl. lia.
      * rewrite Hx. change (inject_Z (1024 ^ Z.of_nat 0)) with 1. field.
      * intros i Hi. lia.
      * rewrite format_f_float. cbn [bind]. now rewrite format_float_nonneg.
Qed.

(** The same for a size in kilobytes: the unit and the value rendered. *)
Lemma human_readable_unit k :
  (1 <= k < double_limit)%Z ->
  exists j v,
    (j <= 4)%nat
    /\ v == round64 (inject_Z k) / inject_Z (1024 ^ Z.of_nat j)
    /\ 1 <= v
    /\ (v < 1024 \/ j = 4%nat)
    /\ (forall i, (i < j)%nat ->
          1024 <= round64 (inject_Z k) / inject_Z (1024 ^ Z.of_nat i))
    /\ human_readable k
       = Ok (decimal1 (round_even (v * 10)) ++ " " ++ nth (S j) units "")%string.
Proof.
  intros [H1 Hk].
  destruct (truediv_kb k ltac:(lia)) as (xq & Hdiv & Hxq).
  pose proof (inject_Z_ge_1 k H1) as Hk1.
  destruct (human_readable_from_float_stops ["K"; "M"; "G"; "T"] (inject_Z k) xq)
    as (j & v & Hj & Hv & Hv1 & Hstop & Hmin & Hout); auto.
  { lra. }
  { apply round64_below_limit. lia. }
  { rewrite Hxq. now apply round64_ge_1. }
  exists j, v. repeat split; auto.
  unfold human_readable. cbn [human_readable_from].
  rewrite lt_kb, Hdiv by lia. cbn [bind]. exact Hout.
Qed.

Lemma append_assoc s1 s2 s3 : ((s1 ++ s2) ++ s3 = s1 ++ s2 ++ s3)%string.
Proof. induction s1; simpl; congruence. Qed.

Lemma decimal1_tens m :
  (0 <= m)%Z -> decimal1 (10 * m) = (PyInt.str m ++ ".0")%string.
Proof.
  intros Hm. unfold decimal1, PyInt.str.
  replace (10 * m / 10)%Z with m by (rewrite Z.mul_comm, Z.div_mul; lia).
  replace ((10 * m) mod 10)%Z with 0%Z by (rewrite Z.mul_comm, Z.mod_mul; lia).
  replace (m <? 0)%Z with false by (symmetry; apply Z.ltb_ge; lia).
  unfold PyStr.of_chars. generalize (PyInt.decimal m). intros l.
  induction l as [|c l IH]; simpl; [reflexivity | now rewrite IH].
Qed.

End Units.

(** X10: for a size of at least one kilobyte the value shown is at least
    1.0, and at most 1024.0 unless the unit is the last one, P. *)
Theorem human_readable_mantissa k :
  1 <= k < double_limit ->
  exists i tenths,
    human_readable k = Ok (decimal1 tenths ++ " " ++ nth i units "")
    /\ (1 <= i <= 5)%nat /\ 10 <= tenths /\ (tenths <= 10240 \/ i = 5%nat).
Proof.
  intros Hk.
  destruct (human_readable_unit k Hk) as (j & v & Hj & _ & Hv1 & Hstop & _ & Hout).
  exists (S j), (round_even (v * 10)). repeat split; auto; try lia.
  - apply Z.le_trans with (round_even (inject_Z 10)); [now rewrite round_even_Z|].
    apply round_even_le. change (inject_Z 10) with 10%Q. lra.
  - destruct Hstop as [Hlt| ->]; [left | now right].
    apply Z.le_trans with (round_even (inject_Z 10240)); [|now rewrite round_even_Z].
    apply round_even_le. change (inject_Z 10240) with 10240%Q. lra.
Qed.

Lemma human_readable_mantissa_witness :
  exists i tenths,
    human_readable 1048575 = Ok (decimal1 tenths ++ " " ++ nth i units "")
    /\ (1 <= i <= 5)%nat /\ 10 <= tenths /\ (tenths <= 10240 \/ i = 5%nat).
Proof. apply (human_readable_mantissa 1048575). split; [lia | reflexivity]. Defined.

(** X11: a whole number of units below 1024 is shown as it is: the size
    [m * 1024^j] kilobytes is rendered as [m] with the decimal 0 and the
    j-th unit after K. *)
Theorem human_readable_whole_units m j :
  1 <= m < 1024 -> (j <= 3)%nat ->
  human_readable (m * 1024 ^ Z.of_nat j)
  = Ok (PyInt.str m ++ ".0 " ++ nth (S j) units "").
Proof.
  intros Hm Hj.
  set (k := m * 1024 ^ Z.of_nat j).
  assert (Hpow : forall i : nat, 0 < 1024 ^ Z.of_nat i) by (intros; apply Z.pow_pos_nonneg; lia).
  assert (Hk40 : 1 <= k < 2 ^ 40).
  { unfold k. split; [pose proof (Hpow j); nia|].
    assert (1024 ^ Z.of_nat j <= 1024 ^ 3) by (apply Z.pow_le_mono_r; lia).
    change (2 ^ 40) with (1024 * 1024 ^ 3). nia. }
  assert (Hlim : 1 <= k < double_limit).
  { split; [lia|]. apply Z.lt_trans with (2 ^ 40); [lia | reflexivity]. }
  destruct (human_readable_unit k Hlim) as (j' & v & Hj' & Hv & _ & Hstop & Hmin & Hout).
  assert (Hexact : (round64 (inject_Z k) == inject_Z k)%Q).
  { apply round64_int. split; [lia|]. apply Z.le_trans with (2 ^ 40); [lia | discriminate]. }
  assert (Hdiv : forall i : nat, (i <= j)%nat ->
            (inject_Z k / inject_Z (1024 ^ Z.of_nat i)
             == inject_Z (m * 1024 ^ Z.of_nat (j - i)))%Q).
  { intros i Hi. unfold k.
    replace (Z.of_nat j) with (Z.of_nat (j - i) + Z.of_nat i) by lia.
    rewrite Z.pow_add_r, !inject_Z_mult by lia.
    replace (Z.of_nat (j - i + i - i)) with (Z.of_nat (j - i)) by lia.
    field. pose proof (pow1024_pos i). lra. }
  assert (Ej : j' = j).
  { destruct (Nat.lt_trichotomy j' j) as [Hlt|[E|Hgt]]; auto; exfalso.
    - destruct Hstop as [Hv1024|E4]; [|lia].
      rewrite Hv, Hexact, (Hdiv j') in Hv1024 by lia.
      change 1024%Q with (inject_Z 1024) in Hv1024. rewrite <- Zlt_Qlt in Hv1024.
      assert (1024 <= 1024 ^ Z.of_nat (j - j')).
      { change 1024 with (1024 ^ 1) at 1. apply Z.pow_le_mono_r; lia. }
      nia.
    - specialize (Hmin j Hgt). rewrite Hexact, (Hdiv j) in Hmin by lia.
      rewrite Nat.sub_diag in Hmin. change (1024 ^ Z.of_nat 0) with 1 in Hmin.
      change 1024%Q with (inject_Z 1024) in Hmin. rewrite <- Zle_Qle in Hmin. lia. }
  subst j'. rewrite Hout.
  assert (Ev : (v * 10 == inject_Z (10 * m))%Q).
  { rewrite Hv, Hexact, (Hdiv j) by lia. rewrite Nat.sub_diag.
    change (1024 ^ Z.of_nat 0) with 1. rewrite Z.mul_1_r, inject_Z_mult.
    change (inject_Z 10) with 10%Q. ring. }
  rewrite (round_even_comp _ _ Ev), round_even_Z, decimal1_tens by lia.
  f_equal. rewrite append_assoc. reflexivity.
Qed.

Lemma human_readable_whole_units_witness :
  human_readable (23 * 1024 ^ Z.of_nat 1) = Ok "23.0 M".
Proof. apply (human_readable_whole_units 23 1); lia. Defined.

(** ** Reading back what was written *)

Section RoundTrip.
















End RoundTrip.



(** ** From the scan to the mapping *)

Section Pipeline.

Lemma split_chars_single sep cs b : PyStr.split_chars sep cs = [b] -> cs = b.
Proof.
  revert b. induction cs as [|c cs IH]; simpl; intros b H.
  - now inversion H.
  - destruct (Ascii.eqb c sep).
    + inversion H as [[E1 E2]]. now apply split_chars_nonempty in E2.
    + destruct (PyStr.split_chars sep cs) as [|f fs] eqn:E.
      * now apply split_chars_nonempty in E.
      * inversion H; subst. f_equal. now apply IH.
Qed.

Lemma split_chars_two sep cs a b :
  PyStr.split_chars sep cs = [a; b] -> cs = (a ++ sep :: b)%list.
Proof.
  revert a. induction cs as [|c cs IH]; simpl; intros a H; [discriminate|].
  destruct (Ascii.eqb_spec c sep) as [->|Hne].
  - inversion H as [[E1 E2]]. apply split_chars_single in E2. now subst.
  - destruct (PyStr.split_chars sep cs) as [|f fs] eqn:E.
    + discriminate.
    + inversion H; subst. simpl. f_equal. now apply IH.
Qed.

Lemma of_chars_empty cs : PyStr.of_chars cs = "" -> cs = [].
Proof. destruct cs; [reflexivity | discriminate]. Qed.

(** A stripped line of two fields has a directory that is not empty. *)
Lemma stripped_fields line size directory :
  PyStr.strip line = line -> fields line = [size; directory] -> directory <> "".
Proof.
  intros Hs Hf Hd. subst directory. unfold fields, PyStr.split in Hf.
  destruct (PyStr.split_chars tab (PyStr.chars line)) as [|a [|b [|c r]]] eqn:E;
    try discriminate.
  simpl in Hf. inversion Hf as [[Ha Hb]]. apply of_chars_empty in Hb. subst b.
  apply split_chars_two in E.
  assert (Ht : PyStr.strip_chars PyStr.isspace (PyStr.chars line) = PyStr.chars line).
  { unfold PyStr.strip in Hs. apply (f_equal PyStr.chars) in Hs.
    now rewrite chars_of_chars in Hs. }
  destruct (strip_chars_trimmed PyStr.isspace (PyStr.chars line)) as [_ H2].
  simpl in H2. rewrite Ht, E, rev_app_distr in H2. simpl in H2.
  pose proof (drop_while_length PyStr.isspace (rev a)) as Hlen.
  rewrite H2 in Hlen. simpl in Hlen. lia.
Qed.

End Pipeline.

(** X13: in the mapping [main] builds, no directory is the empty string and
    none holds a tab or a newline: the lines are stripped before they are
    split. *)
Theorem scanned_directories_nonempty stdout dir_dict directory size_kb :
  create_dir_dict (stripped_lines stdout) = Ok dir_dict ->
  In (directory, size_kb) dir_dict ->
  directory <> ""
  /\ ~ In tab (PyStr.chars directory) /\ ~ In newline (PyStr.chars directory).
Proof.
  intros Hd Hin.
  destruct (create_dir_dict_from_items _ _ _ Hd _ _ Hin) as [[]|(line & size & Hl & Hf & _)].
  destruct (stripped_lines_spec stdout line Hl) as (_ & Hs & Hnl).
  split; [now apply (stripped_fields line size)|].
  unfold fields, PyStr.split in Hf.
  destruct (PyStr.split_chars tab (PyStr.chars line)) as [|a [|b [|c r]]] eqn:E;
    try discriminate.
  simpl in Hf. inversion Hf as [[Ha Hb]]. rewrite chars_of_chars.
  split.
  - apply (split_chars_fields tab (PyStr.chars line)). rewrite E. right; now left.
  - intros Hb'. apply Hnl. rewrite (split_chars_two _ _ _ _ E).
    apply in_or_app. right. now right.
Qed.

Lemma scanned_directories_nonempty_witness :
  create_dir_dict (stripped_lines (du_line "4" "" ++ String newline (du_line "8" "/a")))
  = Ok [("/a", 8)]
  /\ "/a" <> ""
  /\ ~ In tab (PyStr.chars "/a") /\ ~ In newline (PyStr.chars "/a").
Proof.
  split; [reflexivity|].
  apply (scanned_directories_nonempty
           (du_line "4" "" ++ String newline (du_line "8" "/a")) [("/a", 8)] "/a" 8).
  - reflexivity.
  - now left.
Defined.

(** ** The lines of the report *)

Section Rows.



End Rows.



(** ** Negative numbers *)

Section Negative.

Local Open Scope Q_scope.

Lemma round_even_char q : nearest_even q (round_even q).
Proof.
  unfold nearest_even, round_even.
  pose proof (Qfloor_le q) as Hlo. pose proof (Qlt_floor q) as Hhi.
  rewrite inject_Z_plus in Hhi. change (inject_Z 1) with 1 in Hhi.
  set (f := Qfloor q) in *.
  destruct (Qcompare_spec (q - inject_Z f) (1 # 2)) as [E|E|E].
  - destruct (Z.even f) eqn:Ef.
    + right. split; [right; lra | exact Ef].
    + right. split.
      * left. rewrite inject_Z_plus. change (inject_Z 1) with 1. lra.
      * rewrite Z.even_add, Ef. reflexivity.
  - left. lra.
  - left. rewrite inject_Z_plus. change (inject_Z 1) with 1. lra.
Qed.

Lemma nearest_even_unique q n m : nearest_even q n -> nearest_even q m -> n = m.
Proof.
  unfold nearest_even. intros Hn Hm.
  assert (Hz : forall a b : Z, (a <= b)%Z -> inject_Z a <= inject_Z b)
    by (intros; now rewrite <- Zle_Qle).
  assert (Hcases : (m + 2 <= n \/ n + 2 <= m \/ n = m + 1 \/ m = n + 1 \/ n = m)%Z) by lia.
  destruct Hcases as [Hc|[Hc|[Hc|[Hc|Hc]]]]; auto; exfalso.
  - apply Hz in Hc. rewrite inject_Z_plus in Hc. change (inject_Z 2) with 2 in Hc.
    destruct Hn as [?|[[?|?] _]], Hm as [?|[[?|?] _]]; lra.
  - apply Hz in Hc. rewrite inject_Z_plus in Hc. change (inject_Z 2) with 2 in Hc.
    destruct Hn as [?|[[?|?] _]], Hm as [?|[[?|?] _]]; lra.
  - assert (E : inject_Z n == inject_Z m + 1)
      by (subst n; rewrite inject_Z_plus; reflexivity).
    destruct Hn as [[Hn1 Hn2]|[Hnt Hen]], Hm as [[Hm1 Hm2]|[Hmt Hem]];
      try destruct Hnt; try destruct Hmt; try lra.
    all: subst n; rewrite Z.even_add, Hem in Hen; discriminate.
  - assert (E : inject_Z m == inject_Z n + 1)
      by (subst m; rewrite inject_Z_plus; reflexivity).
    destruct Hn as [[Hn1 Hn2]|[Hnt Hen]], Hm as [[Hm1 Hm2]|[Hmt Hem]];
      try destruct Hnt; try destruct Hmt; try lra.
    all: subst m; rewrite Z.even_add, Hen in Hem; discriminate.
Qed.

(** Rounding is symmetric. *)
Lemma round_even_opp q : round_even (- q) = (- round_even q)%Z.
Proof.
  apply (nearest_even_unique (- q)); [apply round_even_char|].
  unfold nearest_even. rewrite inject_Z_opp.
  destruct (round_even_char q) as [[H1 H2]|[[H|H] Hev]].
  - left. split; lra.
  - right. split; [right; lra | now rewrite Z.even_opp].
  - right. split; [left; lra | now rewrite Z.even_opp].
Qed.

Lemma round_to_opp e q : round_to e (- q) == - round_to e q.
Proof.
  unfold round_to.
  assert (E : - q / 2 ^ e == - (q / 2 ^ e)) by (field; pose proof (pow2_pos e); lra).
  rewrite E, round_even_opp, inject_Z_opp. ring.
Qed.

Lemma round64_opp q : round64 (- q) == - round64 q.
Proof.
  unfold round64.
  assert (E : fexp (- q) = fexp q).
  { unfold fexp. destruct (Qeq_dec q 0) as [Hz|Hnz].
    - f_equal. f_equal.
      (* both arguments are the zero fraction with the denominator of [q] *)
      destruct q as [n d]. unfold Qeq in Hz. simpl in Hz.
      assert (n = 0%Z) by lia. subst n. reflexivity.
    - f_equal. f_equal. apply ilog2_comp; [|apply Qabs_opp].
      apply Qabs_case; intros; [|lra].
      destruct (Qlt_le_dec 0 (- q)); auto. exfalso. apply Hnz. lra. }
  rewrite E. apply round_to_opp.
Qed.

(** [float(n)] for an integer of at most 53 bits, of either sign. *)
Lemma of_int_exact_signed n :
  (- 2 ^ 53 <= n <= 2 ^ 53)%Z ->
  exists y r, of_int n = Ok y /\ finite_val y = Some r /\ r == inject_Z n.
Proof.
  intros Hn. destruct (Z.le_gt_cases 0 n) as [Hpos|Hneg].
  { apply of_int_exact. lia. }
  assert (Hr : round64 (inject_Z n) == inject_Z n).
  { assert (E : inject_Z n == - inject_Z (- n)) by (rewrite inject_Z_opp; ring).
    rewrite E at 1. rewrite round64_opp, round64_int by lia.
    rewrite inject_Z_opp. ring. }
  destruct (rounded_finite (n <? 0)%Z (inject_Z n)) as (r & Hf & Hrr).
  { rewrite Hr. rewrite <- Qabs_opp, <- inject_Z_opp.
    rewrite Qabs_pos by (apply inject_Z_nonneg; lia).
    apply pow2_53_lt_1024. lia. }
  exists (rounded (n <? 0)%Z (inject_Z n)), r. split; [|split; auto].
  - unfold of_int. destruct (rounded _ _); try reflexivity. discriminate.
  - now rewrite Hrr.
Qed.

Lemma repeat_char_nonpos c n : (n <= 0)%Z -> PyStr.repeat_char c n = "".
Proof.
  intros H. unfold PyStr.repeat_char.
  replace (Z.to_nat n) with 0%nat by lia. reflexivity.
Qed.

End Negative.

Section NegativeInputs.

Local Open Scope Q_scope.

Lemma finite_nonzero x r : finite_val x = Some r -> ~ r == 0 -> x = Ffin r.
Proof.
  destruct x; simpl; intros H Hr; inversion H; subst; auto. now elim Hr.
Qed.

(** A product between a non-positive integer of at most 53 bits and 0
    rounds to a double in the same range. *)
Lemma rounded_between_neg neg q (b : Z) :
  inject_Z b <= q <= 0 -> (- 2 ^ 53 <= b)%Z ->
  exists r, finite_val (rounded neg q) = Some r /\ inject_Z b <= r <= 0.
Proof.
  intros [Hb H0] H53.
  assert (Hb0 : (b <= 0)%Z) by (rewrite Zle_Qle; change (inject_Z 0) with 0; lra).
  assert (Hr : inject_Z b <= round64 q <= 0).
  { assert (E : q == - - q) by ring.
    rewrite (round64_comp _ _ E), round64_opp.
    assert (H1 : 0 <= round64 (- q)) by (apply round64_nonneg; lra).
    assert (H2 : round64 (- q) <= round64 (inject_Z (- b))).
    { apply round64_le; [lra|]. rewrite inject_Z_opp. lra. }
    rewrite round64_int, inject_Z_opp in H2 by lia. split; lra. }
  destruct (rounded_finite neg q) as (r & Hf & Hr').
  - apply Qabs_Qlt_condition.
    assert (H1 : inject_Z (- b) < 2 ^ 1024) by (apply pow2_53_lt_1024; lia).
    rewrite inject_Z_opp in H1. pose proof (pow2_pos 1024). split; lra.
  - exists r. split; auto. rewrite Hr'. exact Hr.
Qed.

End NegativeInputs.

(** X15: for a width that is not positive the bar is the empty string. *)
Theorem bar_of_negative_width p w :
  valid_percent p -> - 2 ^ 53 <= w <= 0 -> percent_to_graph p w = Ok "".
Proof.
  intros Hp Hw. rewrite percent_to_graph_bar by assumption.
  destruct (truediv_percent_value p Hp) as (x & a & Hdiv & Hx & _ & Ha).
  destruct (of_int_exact_signed w ltac:(lia)) as (y & b & Hy & Hyf & Hb).
  unfold filled_length_of. rewrite Hdiv. cbn [bind].
  assert (Hmul : mul (Float x) (Int w) = Ok (Float (fmul x y))).
  { unfold mul, to_float. cbn [bind]. rewrite Hy. reflexivity. }
  rewrite Hmul. cbn [bind]. rewrite (fmul_finite x y a b Hx Hyf).
  assert (Hw0 : (inject_Z w <= 0)%Q).
  { change 0%Q with (inject_Z 0). rewrite <- Zle_Qle. lia. }
  assert (Hq : (inject_Z w <= a * b <= 0)%Q).
  { rewrite Hb. split.
    - rewrite <- (Qmult_1_l (inject_Z w)) at 1.
      setoid_replace (1 * inject_Z w)%Q with (- (1 * - inject_Z w))%Q by ring.
      setoid_replace (a * inject_Z w)%Q with (- (a * - inject_Z w))%Q by ring.
      apply Qopp_le_compat. apply Qmult_le_compat_r; lra.
    - setoid_replace (a * inject_Z w)%Q with (- (a * - inject_Z w))%Q by ring.
      assert ((0 <= a * - inject_Z w)%Q) by (apply Qmult_le_0_compat; lra). lra. }
  destruct (rounded_between_neg (xorb (sign_bit x) (sign_bit y)) _ w Hq ltac:(lia))
    as (r & Hf & Hr).
  rewrite (round_finite _ r Hf). cbn [bind]. f_equal.
  assert (Hn : w <= round_even r <= 0).
  { split.
    - apply Z.le_trans with (round_even (inject_Z w)); [now rewrite round_even_Z|].
      apply round_even_le. tauto.
    - apply Z.le_trans with (round_even (inject_Z 0)); [|now rewrite round_even_Z].
      apply round_even_le. change (inject_Z 0) with 0%Q. tauto. }
  unfold bar. rewrite !repeat_char_nonpos by lia. reflexivity.
Qed.

Lemma bar_of_negative_width_witness : percent_to_graph (Int 50) (-5) = Ok "".
Proof. apply bar_of_negative_width; [split; reflexivity | lia]. Defined.

Section NegativeSizes.

(** [format(n, '.1f')] for a negative integer of at most 53 bits. *)
Lemma format_f_negative_int n :
  - 2 ^ 53 <= n < 0 -> format_f 1 (Int n) = Ok (PyInt.str n ++ ".0").
Proof.
  intros [Hlow Hn].
  destruct (of_int_exact_signed n ltac:(lia)) as (y & r & Hy & Hf & Hr).
  assert (Hneg : (r < 0)%Q).
  { rewrite Hr. change 0%Q with (inject_Z 0). now rewrite <- Zlt_Qlt. }
  rewrite (finite_nonzero y r Hf) in Hy by lra.
  unfold format_f, to_float. rewrite Hy. cbn [bind]. f_equal.
  unfold format_float, sign_bit. destruct (Qlt_le_dec r 0) as [_|Hc]; [|lra].
  assert (Efp : fixed_point 1 (Qabs r)
                = (PyInt.decimal (- n) ++ ["."%char; "0"%char])%list).
  { unfold fixed_point. change (10 ^ Z.of_nat 1) with 10.
    assert (Ed : round_even (Qabs r * inject_Z 10) = 10 * - n).
    { apply eq_trans with (round_even (inject_Z (10 * - n))); [|apply round_even_Z].
      apply round_even_comp.
      rewrite Qabs_neg, Hr by lra.
      rewrite inject_Z_mult, inject_Z_opp. ring. }
    rewrite Ed.
    replace (10 * - n / 10) with (- n) by (rewrite Z.mul_comm, Z.div_mul; lia).
    replace ((10 * - n) mod 10) with 0 by (rewrite Z.mul_comm, Z.mod_mul; lia).
    reflexivity. }
  rewrite Efp. unfold PyInt.str.
  replace (n <? 0) with true by (symmetry; apply Z.ltb_lt; lia).
  unfold PyStr.of_chars. cbn [string_of_list_ascii append]. f_equal.
  generalize (PyInt.decimal (- n)). intros l.
  induction l as [|c l IH]; simpl; [reflexivity | now rewrite IH].
Qed.

End NegativeSizes.

(** X16: a negative size is not scaled: it is shown in bytes, the number of
    bytes with the decimal 0. *)
Theorem human_readable_negative k :
  k < 0 -> - 2 ^ 53 <= k * 1024 ->
  human_readable k = Ok (PyInt.str (k * 1024) ++ ".0 B").
Proof.
  intros Hk Hlow.
  unfold human_readable. cbn [human_readable_from].
  assert (Hlt : lt (Int (k * 1024)) (Int 1024) = true).
  { unfold lt, value, ereal_le.
    replace (Qle_bool (inject_Z 1024) (inject_Z (k * 1024))) with false; auto.
    symmetry. destruct (Qle_bool _ _) eqn:E; auto.
    apply Qle_bool_iff in E. rewrite <- Zle_Qle in E. lia. }
  rewrite Hlt, format_f_negative_int by lia. cbn [bind].
  now rewrite append_assoc.
Qed.

Lemma human_readable_negative_witness : human_readable (-1) = Ok "-1024.0 B".
Proof. apply (human_readable_negative (-1)); [lia | vm_compute; discriminate]. Defined.

